(** * Masternode vote monitor: a shallow embedding of [mn_vote_monitor.py]

    The Python module walks a Cirrus node through a fixed sequence of
    read-only queries and builds a markdown report of the federation keys
    that did not vote on the last three completed proposals.

    The node is an oracle (a record of total functions); every query is
    logged as an event, so that the order and the number of the queries of a
    run can be stated.  Python exceptions the module itself can raise
    ([TypeError] on unpacking [None], [IndexError] on [addresses[0]],
    [KeyError] on a dict subscript) are results of the computation.
    Python dicts are association lists in insertion order without duplicate
    keys.  [Address(...)] and [str(...)] are the identity on strings, and
    the address list of an output is a list: what pystratis does with a
    string that is no Cirrus address, or with an output that has no address
    list, is outside the model.  The statements that depend on it are
    therefore about the calls that return. *)

From Stdlib Require Import List ZArith String Ascii Bool Lia Permutation Sorted.
Import ListNotations.
Open Scope string_scope.
Open Scope list_scope.
Open Scope Z_scope.

(* ------------------------------------------------------------------ *)
(** ** Exceptions, events and the query monad *)

Inductive exn : Type := TypeError | IndexError | KeyError.

Inductive result (A : Type) : Type :=
| Ok (a : A)
| Raise (e : exn).
Arguments Ok {A} a.
Arguments Raise {A} e.

(** One event per call that reaches the node. *)
Inductive Event : Type :=
| EvFederationMembers
| EvMinerAtHeight (height : Z)
| EvGetBlockhash (height : Z)
| EvBlock (block_hash : string)
| EvGetBlockCount
| EvFederationAtHeight (height : Z)
| EvIsWhitelisted (address : string)
| EvGetVote (proposal_id : Z) (address : string)
| EvLastProposalId
| EvGetVotingDeadline (proposal_id : Z).

(** A computation: the queries issued so far, and a value or an exception. *)
Definition M (A : Type) : Type := (list Event * result A)%type.

Definition ret {A} (a : A) : M A := ([], Ok a).
Definition raise {A} (e : exn) : M A := ([], Raise e).
Definition call {A} (ev : Event) (a : A) : M A := ([ev], Ok a).

Definition bind {A B} (m : M A) (f : A -> M B) : M B :=
  match m with
  | (t, Ok a) => let (t', r) := f a in (t ++ t', r)
  | (t, Raise e) => (t, Raise e)
  end.

Notation "x <- c1 ;; c2" := (bind c1 (fun x => c2))
  (at level 61, c1 at next level, right associativity).

Definition trace {A} (m : M A) : list Event := fst m.
Definition outcome {A} (m : M A) : result A := snd m.

(** [for x in xs: s = body x s], one exception ends the loop. *)
Fixpoint for_each {X S} (xs : list X) (body : X -> S -> M S) (s : S) : M S :=
  match xs with
  | [] => ret s
  | x :: xs' => s' <- body x s ;; for_each xs' body s'
  end.

(** Python's [range(a, b)] and [range(n)]. *)
Definition range (a b : Z) : list Z :=
  map (fun i => a + Z.of_nat i) (seq 0 (Z.to_nat (b - a))).
Definition range0 (n : Z) : list Z := range 0 n.

(* ------------------------------------------------------------------ *)
(** ** Python dicts keyed by strings *)

Module Dict.

Definition t (V : Type) : Type := list (string * V).

Definition empty {V} : t V := [].

Fixpoint get {V} (d : t V) (k : string) : option V :=
  match d with
  | [] => None
  | (k', v) :: d' => if String.eqb k' k then Some v else get d' k
  end.

Definition mem {V} (d : t V) (k : string) : bool :=
  match get d k with Some _ => true | None => false end.

(** [d[k] = v]: an existing key keeps its place, a new key goes last. *)
Fixpoint set {V} (d : t V) (k : string) (v : V) : t V :=
  match d with
  | [] => [(k, v)]
  | (k', v') :: d' =>
      if String.eqb k' k then (k', v) :: d' else (k', v') :: set d' k v
  end.

Definition keys {V} (d : t V) : list string := map fst d.
Definition items {V} (d : t V) : list (string * V) := d.

(** [d[k]] as an expression. *)
Definition subscript {V} (d : t V) (k : string) : result V :=
  match get d k with Some v => Ok v | None => Raise KeyError end.

Definition wf {V} (d : t V) : Prop := NoDup (keys d).

End Dict.

(* ------------------------------------------------------------------ *)
(** ** The node and the blocks it serves *)

Record ScriptPubKey : Type := {
  type : string;
  addresses : list string
}.

Record Vout : Type := { script_pubkey : ScriptPubKey }.

Record Transaction : Type := { vout : list Vout }.

Record Block : Type := { transactions : list Transaction }.

Record Node : Type := {
  federation_members : list string;
  miner_at_height : Z -> option string;
  get_blockhash : Z -> string;
  block : string -> Block;
  get_block_count : Z;
  federation_at_height : Z -> list string;
  IsWhitelisted : string -> bool;
  GetVote : Z -> string -> option Z;
  LastProposalId : Z;
  GetVotingDeadline : Z -> Z
}.

(** [x in xs] for a list of strings. *)
Definition str_in (x : string) (xs : list string) : bool :=
  existsb (String.eqb x) xs.

(** [x in xs] for a list of proposal ids. *)
Definition int_in (x : Z) (xs : list Z) : bool := existsb (Z.eqb x) xs.

(* ------------------------------------------------------------------ *)
(** ** [get_current_federation_pubkeys] *)

Definition get_current_federation_pubkeys (node : Node) : M (list string) :=
  call EvFederationMembers (federation_members node).

(* ------------------------------------------------------------------ *)
(** ** [get_pubkey_and_address_for_height] *)

(** [script_pubkey.type in ['pubkey', 'pubkeyhash']]. *)
Definition recognized (spk : ScriptPubKey) : bool :=
  str_in (type spk) ["pubkey"; "pubkeyhash"].

(** The inner loop over the outputs of one transaction.  [None]: the loop
    ran to its end; [Some r]: the function returned (or raised) inside. *)
Fixpoint scan_vouts (vouts : list Vout) : option (result string) :=
  match vouts with
  | [] => None
  | v :: rest =>
      let spk := script_pubkey v in
      if recognized spk then
        match addresses spk with
        | a :: _ => Some (Ok a)
        | [] => Some (Raise IndexError)
        end
      else scan_vouts rest
  end.

(** The outer loop over the transactions of the block. *)
Fixpoint scan_transactions (txs : list Transaction) : option (result string) :=
  match txs with
  | [] => None
  | tx :: rest =>
      match scan_vouts (vout tx) with
      | Some r => Some r
      | None => scan_transactions rest
      end
  end.

(** The function returns a pair, or [None] when it falls off its end. *)
Definition get_pubkey_and_address_for_height (node : Node) (height : Z)
  : M (option (option string * string)) :=
  pubkey <- call (EvMinerAtHeight height) (miner_at_height node height) ;;
  block_hash <- call (EvGetBlockhash height) (get_blockhash node height) ;;
  blk <- call (EvBlock block_hash) (block node block_hash) ;;
  match scan_transactions (transactions blk) with
  | Some (Ok address) => ret (Some (pubkey, address))
  | Some (Raise e) => raise e
  | None => ret None
  end.

(* ------------------------------------------------------------------ *)
(** ** [get_address_to_fedkey_map] *)

(** The body of the scanning loop: the tuple unpacking, then the guarded
    insertion. *)
Definition scan_step (node : Node) (i : Z) (fedkey_to_address_map : Dict.t string)
  : M (Dict.t string) :=
  r <- get_pubkey_and_address_for_height node i ;;
  match r with
  | None => raise TypeError
  | Some (pubkey, address) =>
      match pubkey with
      | Some pk =>
          if negb (Dict.mem fedkey_to_address_map pk)
          then ret (Dict.set fedkey_to_address_map pk address)
          else ret fedkey_to_address_map
      | None => ret fedkey_to_address_map
      end
  end.

(** Lines 89-97: the intermediate key-to-address map. *)
Definition scan_fedkey_to_address_map (node : Node) (lookback : Z)
  : M (Dict.t string) :=
  current_block_height <- call EvGetBlockCount (get_block_count node) ;;
  let starting_block_height := current_block_height - lookback in
  for_each (range starting_block_height current_block_height)
           (scan_step node) Dict.empty.

(** [{str(v): k for k, v in d.items()}], one item at a time. *)
Definition invert_step (acc : Dict.t string) (kv : string * string)
  : Dict.t string :=
  Dict.set acc (snd kv) (fst kv).

Definition invert (d : Dict.t string) : Dict.t string :=
  fold_left invert_step (Dict.items d) Dict.empty.

Definition get_address_to_fedkey_map (node : Node) (lookback : Z)
  : M (Dict.t string) :=
  fedkey_to_address_map <- scan_fedkey_to_address_map node lookback ;;
  ret (invert fedkey_to_address_map).

(* ------------------------------------------------------------------ *)
(** ** The contract's read-only calls *)

Definition lift {A} (r : result A) : M A := ([], r).

Definition check_if_address_is_dao_whitelisted (node : Node) (address : string)
  : M bool :=
  call (EvIsWhitelisted address) (IsWhitelisted node address).

Definition get_address_proposal_vote (node : Node) (proposal_id : Z)
  (address : string) : M (option Z) :=
  call (EvGetVote proposal_id address) (GetVote node proposal_id address).

Definition get_last_proposal_id (node : Node) : M Z :=
  call EvLastProposalId (LastProposalId node).

Definition get_proposal_ending_height (node : Node) (proposal_id : Z) : M Z :=
  call (EvGetVotingDeadline proposal_id) (GetVotingDeadline node proposal_id).

(* ------------------------------------------------------------------ *)
(** ** [find_whitelisted_federation_addresses] *)

Definition find_whitelisted_federation_addresses (node : Node)
  (payout_address_list : list string) : M (list string) :=
  for_each payout_address_list
    (fun address federation_addresses =>
       is_whitelisted <- check_if_address_is_dao_whitelisted node address ;;
       if is_whitelisted then ret (federation_addresses ++ [address])
       else ret federation_addresses)
    [].

(* ------------------------------------------------------------------ *)
(** ** [get_last_completed_proposal_id] *)

Definition completed_step (node : Node) (current_block_height : Z)
  (index : Z) (best_completed_proposal_id : Z) : M Z :=
  let proposal_id := index + 1 in
  ending_height <- get_proposal_ending_height node proposal_id ;;
  if (ending_height <? current_block_height) && negb (ending_height =? 0)
  then ret proposal_id
  else ret best_completed_proposal_id.

Definition get_last_completed_proposal_id (node : Node)
  (highest_proposal_id : Z) : M Z :=
  current_block_height <- call EvGetBlockCount (get_block_count node) ;;
  for_each (range0 highest_proposal_id)
           (completed_step node current_block_height) 1.

(* ------------------------------------------------------------------ *)
(** ** [tabulate_fed_member_votes] *)

(** The value [{'NoVote': [], 'No': [], 'Yes': []}] of one address. *)
Record Votes : Type := {
  NoVote : list Z;
  No : list Z;
  Yes : list Z
}.

Definition no_votes : Votes := {| NoVote := []; No := []; Yes := [] |}.

(** The inner loop body: one [GetVote] query, then the [if]/[elif] chain. *)
Definition tabulate_step (node : Node) (address : string) (index : Z)
  (v : Votes) : M Votes :=
  let proposal_id := index + 1 in
  vote <- get_address_proposal_vote node proposal_id address ;;
  match vote with
  | Some 0 => ret {| NoVote := NoVote v ++ [proposal_id]; No := No v; Yes := Yes v |}
  | Some 1 => ret {| NoVote := NoVote v; No := No v ++ [proposal_id]; Yes := Yes v |}
  | Some 2 => ret {| NoVote := NoVote v; No := No v; Yes := Yes v ++ [proposal_id] |}
  | _ => ret v
  end.

(** The three lists of an address are created empty, stored under the
    address and filled through that one reference; here they are filled
    first and stored once, at the same place of the dict. *)
Definition tabulate_address (node : Node) (num_sda_proposals : Z)
  (address : string) (fed_member_votes : Dict.t Votes) : M (Dict.t Votes) :=
  v <- for_each (range0 num_sda_proposals) (tabulate_step node address)
                no_votes ;;
  ret (Dict.set fed_member_votes address v).

Definition tabulate_fed_member_votes (node : Node)
  (current_whitelisted_fed_addresses : list string) (num_sda_proposals : Z)
  : M (Dict.t Votes) :=
  for_each current_whitelisted_fed_addresses
           (tabulate_address node num_sda_proposals) Dict.empty.

(* ------------------------------------------------------------------ *)
(** ** [filter_eligible_fedkeys] *)

(** One item of the dict comprehension, [address_to_fedkey_map[k]] first. *)
Definition eligible_step (address_to_fedkey_map : Dict.t string)
  (federation : list string) (kv : string * Votes) (acc : Dict.t Votes)
  : M (Dict.t Votes) :=
  fedkey <- lift (Dict.subscript address_to_fedkey_map (fst kv)) ;;
  if str_in fedkey federation then ret (Dict.set acc (fst kv) (snd kv))
  else ret acc.

Definition filter_eligible_fedkeys (node : Node)
  (fed_member_votes : Dict.t Votes) (address_to_fedkey_map : Dict.t string)
  (best_proposal_id : Z) : M (Dict.t Votes) :=
  ending_height_for_third_last_proposal <-
    get_proposal_ending_height node (best_proposal_id - 2) ;;
  federation_at_end_of_third_last_proposal <-
    call (EvFederationAtHeight ending_height_for_third_last_proposal)
         (federation_at_height node ending_height_for_third_last_proposal) ;;
  for_each (Dict.items fed_member_votes)
           (eligible_step address_to_fedkey_map
                          federation_at_end_of_third_last_proposal)
           Dict.empty.

(* ------------------------------------------------------------------ *)
(** ** [get_nonvoting_fedkeys_in_last_3_proposals] *)

(** The condition of the list comprehension. *)
Definition no_vote_in_last_3 (best_proposal_id : Z) (v : Votes) : bool :=
  int_in best_proposal_id (NoVote v)
  && int_in (best_proposal_id - 1) (NoVote v)
  && int_in (best_proposal_id - 2) (NoVote v).

(** One item: the subscript is evaluated only when the condition holds. *)
Definition nonvoting_step (address_to_fedkey_map : Dict.t string)
  (best_proposal_id : Z) (kv : string * Votes) (acc : list string)
  : M (list string) :=
  if no_vote_in_last_3 best_proposal_id (snd kv) then
    fedkey <- lift (Dict.subscript address_to_fedkey_map (fst kv)) ;;
    ret (acc ++ [fedkey])
  else ret acc.

Definition get_nonvoting_fedkeys_in_last_3_proposals
  (address_to_fedkey_map : Dict.t string) (fed_member_votes : Dict.t Votes)
  (best_proposal_id : Z) : M (list string) :=
  for_each (Dict.items fed_member_votes)
           (nonvoting_step address_to_fedkey_map best_proposal_id) [].

(* ------------------------------------------------------------------ *)
(** ** [markdown_format_output] *)

Definition header : string :=
  "**The following fedkeys were eligible and have not voted for the last 3 completed proposal votes:**".

Definition newline : string := String (ascii_of_nat 10) EmptyString.

Definition bullet (fedkey : string) : string := "- " ++ fedkey.

(** [list.sort()]: a stable sort that compares with [<] only. *)
Fixpoint insert (x : string) (l : list string) : list string :=
  match l with
  | [] => [x]
  | y :: l' => if String.ltb x y then x :: y :: l' else y :: insert x l'
  end.

Definition sort (l : list string) : list string :=
  fold_left (fun acc x => insert x acc) l [].

Definition markdown_format_output (nonvoting_fedkeys : list string) : string :=
  let output := [header] in
  let nonvoting_fedkeys := map bullet nonvoting_fedkeys in
  let nonvoting_fedkeys := sort nonvoting_fedkeys in
  let output := output ++ nonvoting_fedkeys in
  String.concat newline output.

(* ------------------------------------------------------------------ *)
(** ** [run_vote_monitor] *)

(** The local variables of [run_vote_monitor] before its last line. *)
Record Locals : Type := {
  address_to_fedkey_map : Dict.t string;
  num_sda_proposals : Z;
  current_whitelisted_fed_addresses : list string;
  tabulated_votes : Dict.t Votes;
  fed_member_votes : Dict.t Votes;
  nonvoting_fedkeys : list string
}.

(** The body of [run_vote_monitor] up to the call of the formatter. *)
Definition vote_monitor_stages (node : Node) : M Locals :=
  fed_pubkeys <- get_current_federation_pubkeys node ;;
  let num_fed_members := Z.of_nat (List.length fed_pubkeys) in
  a2f <- get_address_to_fedkey_map node (num_fed_members * 3) ;;
  highest_proposal_id <- get_last_proposal_id node ;;
  num <- get_last_completed_proposal_id node highest_proposal_id ;;
  whitelisted <- find_whitelisted_federation_addresses node (Dict.keys a2f) ;;
  votes <- tabulate_fed_member_votes node whitelisted num ;;
  filtered <- filter_eligible_fedkeys node votes a2f num ;;
  nonvoting <- get_nonvoting_fedkeys_in_last_3_proposals a2f filtered num ;;
  ret {| address_to_fedkey_map := a2f;
         num_sda_proposals := num;
         current_whitelisted_fed_addresses := whitelisted;
         tabulated_votes := votes;
         fed_member_votes := filtered;
         nonvoting_fedkeys := nonvoting |}.

Definition run_vote_monitor (node : Node) : M string :=
  locals <- vote_monitor_stages node ;;
  ret (markdown_format_output (nonvoting_fedkeys locals)).

(* ------------------------------------------------------------------ *)
(** ** Specification predicates *)

(** The key-to-address map after the scan of the heights [lo .. h-1]: a key
    is bound to the address of its earliest sighting, and every producer
    seen so far is bound. *)
Definition earliest_sightings (node : Node) (lo h : Z) (m : Dict.t string)
  : Prop :=
  (forall k a, Dict.get m k = Some a <->
     exists h0, lo <= h0 < h /\
       outcome (get_pubkey_and_address_for_height node h0)
       = Ok (Some (Some k, a)) /\
       forall h', lo <= h' < h0 -> miner_at_height node h' <> Some k) /\
  (forall h' k, lo <= h' < h -> miner_at_height node h' = Some k ->
     Dict.mem m k = true).

(* ------------------------------------------------------------------ *)
(** ** Concrete chains for the examples *)

(** A block hash for a small height: one character. *)
Definition hash_of_height (h : Z) : string :=
  String (ascii_of_N (Z.to_N h)) EmptyString.

Definition height_of_hash (s : string) : Z :=
  match s with
  | String c EmptyString => Z.of_N (N_of_ascii c)
  | _ => -1
  end.

Definition output (ty : string) (addrs : list string) : Vout :=
  {| script_pubkey := {| type := ty; addresses := addrs |} |}.

(** A block whose only transaction pays its only output to [addr]. *)
Definition paying (addr : string) : Block :=
  {| transactions := [ {| vout := [output "pubkeyhash" [addr]] |} ] |}.

Definition no_block : Block := {| transactions := [] |}.

Fixpoint slot {A} (slots : list (Z * A)) (h : Z) : option A :=
  match slots with
  | [] => None
  | (h', a) :: rest => if h' =? h then Some a else slot rest h
  end.

(** A node that serves the given producer and block per height. *)
Definition chain (tip : Z) (slots : list (Z * (option string * Block)))
  (members : list string) (historic : Z -> list string)
  (whitelist : string -> bool) (votes : Z -> string -> option Z)
  (deadlines : list Z) : Node :=
  {| federation_members := members;
     miner_at_height := fun h =>
       match slot slots h with Some (pk, _) => pk | None => None end;
     get_blockhash := hash_of_height;
     block := fun s =>
       match slot slots (height_of_hash s) with
       | Some (_, b) => b
       | None => no_block
       end;
     get_block_count := tip;
     federation_at_height := historic;
     IsWhitelisted := whitelist;
     GetVote := votes;
     LastProposalId := Z.of_nat (List.length deadlines);
     GetVotingDeadline := fun p =>
       if p <=? 0 then 0 else nth (Z.to_nat (p - 1)) deadlines 0 |}.

(** Heights 100-104 with the producer and address pairs
    (PKA,A), (PKB,B), (PKA,A2), (PKC,C), (PKB,B2). *)
Definition chain_100_104 : Node :=
  chain 105
    [ (100, (Some "PKA", paying "A"));
      (101, (Some "PKB", paying "B"));
      (102, (Some "PKA", paying "A2"));
      (103, (Some "PKC", paying "C"));
      (104, (Some "PKB", paying "B2")) ]
    ["PKA"; "PKB"; "PKC"] (fun _ => ["PKA"; "PKB"; "PKC"])
    (fun _ => true) (fun _ _ => Some 0) [50; 80; 120; 150; 0].

(** Heights 10-12; the block at 11 has one transaction, whose only output
    is a data carrier. *)
Definition chain_missing_output : Node :=
  chain 13
    [ (10, (Some "PKA", paying "A"));
      (11, (Some "PKB",
            {| transactions := [ {| vout := [output "nulldata" []] |} ] |}));
      (12, (Some "PKC", paying "C")) ]
    ["PKA"] (fun _ => ["PKA"; "PKB"; "PKC"])
    (fun _ => true) (fun _ _ => Some 0) [5].

(** Height 20; the first transaction of the block has no recognized output,
    the second pays to B. *)
Definition chain_later_transaction : Node :=
  chain 21
    [ (20, (Some "PK",
            {| transactions :=
                 [ {| vout := [output "nulldata" []] |};
                   {| vout := [output "pubkeyhash" ["B"]] |} ] |})) ]
    ["PK"] (fun _ => ["PK"])
    (fun _ => true) (fun _ _ => Some 0) [5].

(** A proposal is completed: its ending height is nonzero and strictly
    below the current chain height. *)
Definition completed (node : Node) (proposal_id : Z) : Prop :=
  GetVotingDeadline node proposal_id <> 0 /\
  GetVotingDeadline node proposal_id < get_block_count node.

(** Five proposals with the ending heights 50, 80, 120, 150, 0 on a chain
    of height 160. *)
Definition chain_5_proposals : Node :=
  chain 160 [] [] (fun _ => []) (fun _ => true) (fun _ _ => Some 0)
        [50; 80; 120; 150; 0].

(** Ascending lexicographic order on strings, byte by byte. *)
Definition str_le (a b : string) : Prop := String.leb a b = true.

(** Heights 30 and 31, two producers paid to the same address. *)
Definition chain_shared_address : Node :=
  chain 32
    [ (30, (Some "PKA", paying "A"));
      (31, (Some "PKB", paying "A")) ]
    ["PKA"; "PKB"] (fun _ => ["PKA"; "PKB"])
    (fun _ => true) (fun _ _ => Some 0) [5].

(** The delinquency condition on the vote lists of one address. *)
Definition abstained_on_last_3 (best_proposal_id : Z) (v : Votes) : Prop :=
  In best_proposal_id (NoVote v) /\
  In (best_proposal_id - 1) (NoVote v) /\
  In (best_proposal_id - 2) (NoVote v).

(** The [GetVote] queries of a trace, as (proposal id, address) pairs. *)
Definition get_vote_query (ev : Event) : list (Z * string) :=
  match ev with
  | EvGetVote proposal_id address => [(proposal_id, address)]
  | _ => []
  end.

(** Heights 40-42, produced by PKA (paid to A) and PKB (paid to B); three
    completed proposals on which nobody voted; only PKA was a member at the
    end of the first. *)
Definition chain_two_voters : Node :=
  chain 43
    [ (40, (Some "PKA", paying "A"));
      (41, (Some "PKB", paying "B"));
      (42, (Some "PKA", paying "A")) ]
    ["PKA"] (fun _ => ["PKA"])
    (fun _ => true) (fun _ _ => Some 0) [10; 20; 30].

(** The same chain with two completed proposals only. *)
Definition chain_two_proposals : Node :=
  chain 43
    [ (40, (Some "PKA", paying "A"));
      (41, (Some "PKB", paying "B"));
      (42, (Some "PKA", paying "A")) ]
    ["PKA"] (fun _ => ["PKA"])
    (fun _ => true) (fun _ _ => Some 0) [10; 20].

(* ------------------------------------------------------------------ *)
(** ** Specification functions for the stages *)

(** The contract answers [code] for the proposal and the address. *)
Definition has_vote (node : Node) (address : string) (code : Z)
  (proposal_id : Z) : bool :=
  match GetVote node proposal_id address with
  | Some c => c =? code
  | None => false
  end.

(** The proposal ids [1 .. B], ascending. *)
Definition proposal_ids (B : Z) : list Z := map (fun index => index + 1) (range0 B).

(** The address has a key and the key is in the given federation. *)
Definition eligible (address_to_fedkey_map : Dict.t string)
  (federation : list string) (kv : string * Votes) : bool :=
  match Dict.get address_to_fedkey_map (fst kv) with
  | Some fedkey => str_in fedkey federation
  | None => false
  end.

Definition swap (kv : string * string) : string * string := (snd kv, fst kv).

(** The block of a height has a recognized output with an address before
    any recognized output without one. *)
Definition payable (node : Node) (h : Z) : Prop :=
  exists address,
    scan_transactions (transactions (block node (get_blockhash node h)))
    = Some (Ok address).

(** The three node queries of one scanned height. *)
Definition height_queries (node : Node) (h : Z) : list Event :=
  [EvMinerAtHeight h; EvGetBlockhash h; EvBlock (get_blockhash node h)].

(** Height 50: the first recognized output of the block has no address,
    the next one has. *)
Definition chain_no_address : Node :=
  chain 51
    [ (50, (Some "PK",
            {| transactions :=
                 [ {| vout := [output "nulldata" []; output "pubkey" [];
                               output "pubkeyhash" ["B"]] |} ] |})) ]
    ["PK"] (fun _ => ["PK"])
    (fun _ => true) (fun _ _ => Some 0) [5].

(** Votes of two addresses on four proposals: X abstains throughout, Y
    votes no, yes, abstains, and answers an unknown code. *)
Definition chain_mixed_votes : Node :=
  chain 43
    [ (40, (Some "PKX", paying "X"));
      (41, (Some "PKY", paying "Y"));
      (42, (Some "PKX", paying "X")) ]
    ["PKX"] (fun _ => ["PKX"; "PKY"])
    (fun a => String.eqb a "X" || String.eqb a "Y")
    (fun p a => if String.eqb a "X" then Some 0
                else if p =? 1 then Some 1
                else if p =? 2 then Some 2
                else if p =? 3 then Some 0
                else Some 7)
    [10; 20; 30; 35].

(* ================================================================== *)
(** * Properties *)

(* ------------------------------------------------------------------ *)
(** ** The query monad and the loops *)

Lemma bind_Ok {A B} (m : M A) (f : A -> M B) t b :
  bind m f = (t, Ok b) ->
  exists t1 a t2, m = (t1, Ok a) /\ f a = (t2, Ok b) /\ t = t1 ++ t2.
Proof.
  unfold bind. destruct m as [t1 [a | e]]; [| discriminate].
  destruct (f a) as [t2 r] eqn:E. intros H. inversion H; subst.
  exists t1, a, t2. auto.
Qed.

Lemma outcome_bind_Ok {A B} (m : M A) (f : A -> M B) b :
  outcome (bind m f) = Ok b ->
  exists a, outcome m = Ok a /\ outcome (f a) = Ok b.
Proof.
  unfold outcome, bind. destruct m as [t1 [a | e]]; simpl; [| discriminate].
  destruct (f a) as [t2 r] eqn:E. simpl. intros ->. exists a. rewrite E. auto.
Qed.

Lemma outcome_bind {A B} (m : M A) (f : A -> M B) :
  outcome (bind m f) =
  match outcome m with Ok a => outcome (f a) | Raise e => Raise e end.
Proof.
  unfold outcome, bind. destruct m as [t1 [a | e]]; simpl; auto.
  destruct (f a); auto.
Qed.

Lemma trace_bind_Ok {A B} (m : M A) (f : A -> M B) a :
  outcome m = Ok a -> trace (bind m f) = trace m ++ trace (f a).
Proof.
  unfold outcome, trace, bind. destruct m as [t1 r]. simpl. intros ->.
  destruct (f a); auto.
Qed.

Lemma outcome_bind_call {A B} ev (a : A) (f : A -> M B) :
  outcome (bind (call ev a) f) = outcome (f a).
Proof. unfold outcome, bind, call. now destruct (f a). Qed.

Lemma trace_bind_call {A B} ev (a : A) (f : A -> M B) :
  trace (bind (call ev a) f) = ev :: trace (f a).
Proof. unfold trace, bind, call. now destruct (f a). Qed.

Lemma Forall2_In_r {A B} (R : A -> B -> Prop) l1 l2 y :
  Forall2 R l1 l2 -> In y l2 -> exists x, In x l1 /\ R x y.
Proof.
  induction 1 as [| x y' l1 l2 Hxy _ IH]; intros Hin; [contradiction |].
  destruct Hin as [-> | Hin].
  - exists x. split; [now left | assumption].
  - destruct (IH Hin) as (x' & ? & ?). exists x'. split; [now right | assumption].
Qed.

Lemma outcome_bind_eq {A B} (m : M A) (f : A -> M B) a :
  outcome m = Ok a -> outcome (bind m f) = outcome (f a).
Proof. intros H. now rewrite outcome_bind, H. Qed.

Lemma for_each_app {X S} (xs ys : list X) (body : X -> S -> M S) (s : S) :
  for_each (xs ++ ys) body s = (s' <- for_each xs body s ;; for_each ys body s').
Proof.
  revert s. induction xs as [| x xs IH]; intros s; simpl.
  - unfold bind, ret. destruct (for_each ys body s). reflexivity.
  - unfold bind at 1 3. destruct (body x s) as [t [s1 | e]]; [| reflexivity].
    rewrite IH. unfold bind. destruct (for_each xs body s1) as [t1 [s2 | e]].
    + destruct (for_each ys body s2). now rewrite app_assoc.
    + reflexivity.
Qed.

(** A loop invariant over the processed prefix of the iterated list. *)
Lemma for_each_invariant {X S} (I : list X -> S -> Prop)
  (body : X -> S -> M S) (xs : list X) (s0 s : S) :
  I [] s0 ->
  (forall pre x s1 s2, I pre s1 -> outcome (body x s1) = Ok s2 ->
                       I (pre ++ [x]) s2) ->
  outcome (for_each xs body s0) = Ok s ->
  I xs s.
Proof.
  intros H0 Hstep.
  assert (G : forall ys pre s1, I pre s1 ->
            outcome (for_each ys body s1) = Ok s -> I (pre ++ ys) s).
  { induction ys as [| y ys IH]; intros pre s1 HI Hrun; simpl in Hrun.
    - unfold outcome, ret in Hrun. simpl in Hrun. inversion Hrun; subst.
      now rewrite app_nil_r.
    - apply outcome_bind_Ok in Hrun. destruct Hrun as (s2 & Hb & Hrest).
      replace (pre ++ y :: ys) with ((pre ++ [y]) ++ ys)
        by now rewrite <- app_assoc.
      eapply IH; eauto. }
  intros Hrun. apply (G xs [] s0 H0 Hrun).
Qed.

(** A loop whose body never raises returns. *)
Lemma for_each_total {X S} (body : X -> S -> M S) (xs : list X) (s0 : S) :
  (forall x s, exists s', outcome (body x s) = Ok s') ->
  exists s, outcome (for_each xs body s0) = Ok s.
Proof.
  intros Hb. revert s0. induction xs as [| x xs IH]; intros s0; simpl.
  - exists s0. reflexivity.
  - rewrite outcome_bind. destruct (Hb x s0) as (s1 & ->). apply IH.
Qed.

(* ------------------------------------------------------------------ *)
(** ** Ranges *)

Lemma in_range a b h : In h (range a b) <-> a <= h < b.
Proof.
  unfold range. rewrite in_map_iff. split.
  - intros (i & <- & Hi). apply in_seq in Hi. lia.
  - intros H. exists (Z.to_nat (h - a)). split; [lia |]. apply in_seq. lia.
Qed.

Lemma range_nil a b : b <= a -> range a b = [].
Proof. intros H. unfold range. now replace (Z.to_nat (b - a)) with O by lia. Qed.

Lemma range_cons a b : a < b -> range a b = a :: range (a + 1) b.
Proof.
  intros H. unfold range.
  replace (Z.to_nat (b - a)) with (S (Z.to_nat (b - (a + 1)))) by lia.
  simpl. f_equal; [lia |].
  rewrite <- seq_shift, map_map. apply map_ext. intros i. lia.
Qed.

(** A loop invariant for [for i in range(a, b)], indexed by the next [i]. *)
Lemma for_range_invariant {S} (I : Z -> S -> Prop) (body : Z -> S -> M S)
  (a b : Z) (s0 s : S) :
  I a s0 ->
  (forall h s1 s2, a <= h < b -> I h s1 -> outcome (body h s1) = Ok s2 ->
                   I (h + 1) s2) ->
  outcome (for_each (range a b) body s0) = Ok s ->
  I (Z.max a b) s.
Proof.
  intros H0 Hstep.
  remember (Z.to_nat (b - a)) as n eqn:En.
  assert (G : forall n c s1, n = Z.to_nat (b - c) -> a <= c -> I c s1 ->
            outcome (for_each (range c b) body s1) = Ok s -> I (Z.max c b) s).
  { clear n En. induction n as [| n IH]; intros c s1 En Hc HI Hrun.
    - rewrite range_nil in Hrun by lia. inversion Hrun; subst.
      now replace (Z.max c b) with c by lia.
    - rewrite range_cons in Hrun by lia. simpl in Hrun.
      apply outcome_bind_Ok in Hrun. destruct Hrun as (s2 & Hb & Hrest).
      replace (Z.max c b) with (Z.max (c + 1) b) by lia.
      apply (IH (c + 1) s2); try lia; auto.
      apply (Hstep c s1 s2); auto. lia. }
  apply (G n a s0); auto. lia.
Qed.

(** The selected queries of a loop are those of its iterations, in order. *)
Lemma for_each_trace {X S Y} (g : Event -> list Y) (w : X -> list Y)
  (body : X -> S -> M S) (xs : list X) (s0 s : S) :
  (forall x s1 s2, outcome (body x s1) = Ok s2 ->
                   flat_map g (trace (body x s1)) = w x) ->
  outcome (for_each xs body s0) = Ok s ->
  flat_map g (trace (for_each xs body s0)) = flat_map w xs.
Proof.
  intros Hw. revert s0. induction xs as [| x xs IH]; intros s0 Hrun.
  - reflexivity.
  - simpl in *. destruct (outcome_bind_Ok _ _ _ Hrun) as (s1 & Hb & Hrest).
    rewrite (trace_bind_Ok _ _ _ Hb), flat_map_app.
    now rewrite (Hw _ _ _ Hb), (IH _ Hrest).
Qed.

(* ------------------------------------------------------------------ *)
(** ** Dicts *)

Lemma get_set {V} (d : Dict.t V) k v k' :
  Dict.get (Dict.set d k v) k' =
  if String.eqb k k' then Some v else Dict.get d k'.
Proof.
  induction d as [| [k0 v0] d IH]; simpl.
  - reflexivity.
  - destruct (String.eqb_spec k0 k) as [-> | Hne]; simpl.
    + destruct (String.eqb k k'); reflexivity.
    + rewrite IH. destruct (String.eqb_spec k0 k') as [-> | Hne'].
      * destruct (String.eqb_spec k k'); [congruence | reflexivity].
      * reflexivity.
Qed.

Lemma mem_set {V} (d : Dict.t V) k v k' :
  Dict.mem d k' = true -> Dict.mem (Dict.set d k v) k' = true.
Proof.
  unfold Dict.mem. rewrite get_set. now destruct (String.eqb k k').
Qed.

Lemma get_In {V} (d : Dict.t V) k v : Dict.get d k = Some v -> In (k, v) d.
Proof.
  induction d as [| [k0 v0] d IH]; simpl; [discriminate |].
  destruct (String.eqb_spec k0 k) as [-> | Hne].
  - intros H. inversion H. now left.
  - intros H. right. auto.
Qed.

Lemma get_None_keys {V} (d : Dict.t V) k :
  Dict.get d k = None <-> ~ In k (Dict.keys d).
Proof.
  induction d as [| [k0 v0] d IH]; simpl.
  - tauto.
  - destruct (String.eqb_spec k0 k) as [-> | Hne].
    + split; [discriminate | tauto].
    + rewrite IH. tauto.
Qed.

Lemma In_get {V} (d : Dict.t V) k v :
  Dict.wf d -> In (k, v) d -> Dict.get d k = Some v.
Proof.
  unfold Dict.wf. induction d as [| [k0 v0] d IH]; simpl; [tauto |].
  intros Hnd [H | H].
  - inversion H; subst. now rewrite String.eqb_refl.
  - inversion Hnd; subst. destruct (String.eqb_spec k0 k) as [-> | Hne].
    + exfalso. apply H2. apply in_map_iff. now exists (k, v).
    + auto.
Qed.

Lemma set_fresh {V} (d : Dict.t V) k v :
  Dict.get d k = None -> Dict.set d k v = d ++ [(k, v)].
Proof.
  induction d as [| [k0 v0] d IH]; simpl; [reflexivity |].
  destruct (String.eqb k0 k); [discriminate |]. intros H. now rewrite IH.
Qed.

Lemma keys_set_present {V} (d : Dict.t V) k v :
  Dict.get d k <> None -> Dict.keys (Dict.set d k v) = Dict.keys d.
Proof.
  induction d as [| [k0 v0] d IH]; simpl; [congruence |].
  destruct (String.eqb_spec k0 k) as [-> | Hne]; simpl; [reflexivity |].
  intros H. now rewrite IH.
Qed.

Lemma wf_set {V} (d : Dict.t V) k v : Dict.wf d -> Dict.wf (Dict.set d k v).
Proof.
  unfold Dict.wf. intros Hd. destruct (Dict.get d k) eqn:E.
  - rewrite keys_set_present; [assumption | congruence].
  - rewrite set_fresh by assumption. unfold Dict.keys. rewrite map_app. simpl.
    apply NoDup_app; [assumption | repeat constructor; simpl; tauto |].
    intros a Ha [<- | []]. now apply get_None_keys in E.
Qed.

(* ------------------------------------------------------------------ *)
(** ** The resolver *)

Lemma pubkey_and_address_outcome node h :
  outcome (get_pubkey_and_address_for_height node h) =
  match scan_transactions (transactions (block node (get_blockhash node h))) with
  | Some (Ok address) => Ok (Some (miner_at_height node h, address))
  | Some (Raise e) => Raise e
  | None => Ok None
  end.
Proof.
  unfold get_pubkey_and_address_for_height, outcome, bind, call. simpl.
  destruct (scan_transactions _) as [[a | e] |]; reflexivity.
Qed.

(** What one successful iteration of the scanning loop does to the map. *)
Lemma scan_step_Ok node i d d' :
  outcome (scan_step node i d) = Ok d' ->
  exists address,
    outcome (get_pubkey_and_address_for_height node i)
    = Ok (Some (miner_at_height node i, address)) /\
    d' = match miner_at_height node i with
         | Some pk => if Dict.mem d pk then d else Dict.set d pk address
         | None => d
         end.
Proof.
  unfold scan_step. rewrite outcome_bind, pubkey_and_address_outcome.
  destruct (scan_transactions _) as [[a | e] |]; try discriminate.
  destruct (miner_at_height node i) as [pk |].
  - destruct (Dict.mem d pk); simpl; intros H; inversion H; eauto.
  - intros H; inversion H; eauto.
Qed.

Section FirstSighting.
Variable node : Node.
Variable lo : Z.

Lemma earliest_sightings_init : earliest_sightings node lo lo Dict.empty.
Proof.
  split.
  - intros k a. simpl. split; [discriminate | intros (h0 & ? & _); lia].
  - intros; lia.
Qed.

Lemma earliest_sightings_step h m m' :
  lo <= h ->
  earliest_sightings node lo h m ->
  outcome (scan_step node h m) = Ok m' ->
  earliest_sightings node lo (h + 1) m'.
Proof.
  intros Hlo [Hget Hmem] Hstep.
  apply scan_step_Ok in Hstep. destruct Hstep as (addr & Hsight & ->).
  destruct (miner_at_height node h) as [pk |] eqn:Hminer.
  - destruct (Dict.mem m pk) eqn:Hpk.
    + split.
      * intros k a. rewrite Hget. split.
        -- intros (h0 & ? & ? & ?). exists h0. repeat split; auto; lia.
        -- intros (h0 & Hr & Hs & Hfirst).
           assert (h0 < h \/ h0 = h) as [Hlt | ->] by lia.
           ++ exists h0. repeat split; auto; lia.
           ++ exfalso. rewrite Hsight in Hs. inversion Hs; subst.
              unfold Dict.mem in Hpk.
              destruct (Dict.get m k) as [a0 |] eqn:E; [| discriminate].
              apply Hget in E. destruct E as (h1 & Hr1 & Hs1 & _).
              apply (Hfirst h1); [lia |].
              rewrite pubkey_and_address_outcome in Hs1.
              destruct (scan_transactions _) as [[? | ?] |];
                now inversion Hs1.
      * intros h' k Hr Hk. assert (h' < h \/ h' = h) as [Hlt | ->] by lia.
        -- apply (Hmem h'); auto; lia.
        -- congruence.
    + split.
      * intros k a. rewrite get_set. destruct (String.eqb_spec pk k) as [<- | Hne].
        -- split.
           ++ intros H. inversion H; subst. exists h. repeat split; [lia | lia | auto |].
              intros h' Hr Hk. rewrite (Hmem h' pk) in Hpk; [discriminate | lia | auto].
           ++ intros (h0 & Hr & Hs & Hfirst).
              assert (h0 < h \/ h0 = h) as [Hlt | ->] by lia.
              ** exfalso. assert (E : Dict.get m pk = Some a).
                 { apply Hget. exists h0. repeat split; auto; lia. }
                 unfold Dict.mem in Hpk. now rewrite E in Hpk.
              ** rewrite Hsight in Hs. now inversion Hs.
        -- rewrite Hget. split.
           ++ intros (h0 & ? & ? & ?). exists h0. repeat split; auto; lia.
           ++ intros (h0 & Hr & Hs & Hfirst).
              assert (h0 < h \/ h0 = h) as [Hlt | ->] by lia.
              ** exists h0. repeat split; auto; lia.
              ** rewrite Hsight in Hs. inversion Hs; congruence.
      * intros h' k Hr Hk. assert (h' < h \/ h' = h) as [Hlt | ->] by lia.
        -- apply mem_set. apply (Hmem h'); auto; lia.
        -- assert (k = pk) as -> by congruence.
           unfold Dict.mem. rewrite get_set, String.eqb_refl. reflexivity.
  - split.
    + intros k a. rewrite Hget. split.
      * intros (h0 & ? & ? & ?). exists h0. repeat split; auto; lia.
      * intros (h0 & Hr & Hs & Hfirst).
        assert (h0 < h \/ h0 = h) as [Hlt | ->] by lia.
        -- exists h0. repeat split; auto; lia.
        -- rewrite Hsight in Hs. inversion Hs.
    + intros h' k Hr Hk. assert (h' < h \/ h' = h) as [Hlt | ->] by lia.
      * apply (Hmem h'); auto; lia.
      * congruence.
Qed.

End FirstSighting.

Lemma scan_reaches_earliest_sightings node lookback m :
  outcome (scan_fedkey_to_address_map node lookback) = Ok m ->
  0 <= lookback ->
  earliest_sightings node (get_block_count node - lookback)
                     (get_block_count node) m.
Proof.
  unfold scan_fedkey_to_address_map. rewrite outcome_bind. simpl.
  intros Hrun Hlb.
  set (tip := get_block_count node) in *.
  replace tip with (Z.max (tip - lookback) tip) at 2 by lia.
  eapply for_range_invariant with (I := earliest_sightings node (tip - lookback));
    [apply earliest_sightings_init | | exact Hrun].
  intros h s1 s2 Hr HI Hb. eapply earliest_sightings_step; eauto. lia.
Qed.

(** C1. For every chain state and lookback window, when the scan of the
    heights tip-lookback .. tip-1 (ascending) returns, the intermediate
    key-to-address map binds a key to an address exactly when that address
    is the one of the earliest height of the window produced by the key;
    the node is asked for the producers of those heights in ascending
    order; and for the blocks 100-104 with the pairs (PKA,A), (PKB,B),
    (PKA,A2), (PKC,C), (PKB,B2) the map is {PKA:A, PKB:B, PKC:C}. *)
Theorem first_sighting_wins :
  (forall node lookback m,
     outcome (scan_fedkey_to_address_map node lookback) = Ok m ->
     let tip := get_block_count node in
     (forall k a, Dict.get m k = Some a <->
        exists h, tip - lookback <= h < tip /\
          outcome (get_pubkey_and_address_for_height node h)
          = Ok (Some (Some k, a)) /\
          forall h', tip - lookback <= h' < h ->
                     miner_at_height node h' <> Some k) /\
     flat_map (fun ev => match ev with EvMinerAtHeight h => [h] | _ => [] end)
              (trace (scan_fedkey_to_address_map node lookback))
     = range (tip - lookback) tip) /\
  outcome (scan_fedkey_to_address_map chain_100_104 5)
  = Ok [("PKA", "A"); ("PKB", "B"); ("PKC", "C")].
Proof.
  split; [| reflexivity].
  intros node lookback m Hrun tip. split.
  - destruct (Z_le_gt_dec 0 lookback) as [Hlb | Hlb].
    + apply (scan_reaches_earliest_sightings node lookback m Hrun Hlb).
    + unfold scan_fedkey_to_address_map in Hrun. rewrite outcome_bind in Hrun.
      simpl in Hrun. rewrite range_nil in Hrun by lia. inversion Hrun; subst.
      intros k a. simpl. split; [discriminate |]. intros (h & ? & _).
      unfold tip in *. lia.
  - unfold scan_fedkey_to_address_map in *.
    rewrite outcome_bind in Hrun. simpl in Hrun.
    rewrite (trace_bind_Ok _ _ (get_block_count node)) by reflexivity.
    simpl. fold tip.
    rewrite (for_each_trace _ (fun h => [h]) _ _ _ m); auto.
    + clear. induction (range (tip - lookback) tip); simpl; congruence.
    + intros x s1 s2 Hs. unfold scan_step in *.
      rewrite outcome_bind in Hs.
      destruct (outcome (get_pubkey_and_address_for_height node x)) as [r |] eqn:E;
        [| discriminate].
      rewrite (trace_bind_Ok _ _ r E).
      unfold get_pubkey_and_address_for_height, trace, bind, call.
      simpl. destruct (scan_transactions _) as [[? | ?] |]; simpl;
        destruct r as [[[pk |] ?] |]; simpl; try reflexivity;
        try (destruct (Dict.mem s1 pk); reflexivity).
Qed.

Lemma first_sighting_wins_witness :
  Dict.get [("PKA", "A"); ("PKB", "B"); ("PKC", "C")] "PKB" = Some "B" <->
  exists h, 105 - 5 <= h < 105 /\
    outcome (get_pubkey_and_address_for_height chain_100_104 h)
    = Ok (Some (Some "PKB", "B")) /\
    forall h', 105 - 5 <= h' < h ->
               miner_at_height chain_100_104 h' <> Some "PKB".
Proof.
  exact (proj1 (proj1 first_sighting_wins chain_100_104 5
                  [("PKA", "A"); ("PKB", "B"); ("PKC", "C")] eq_refl)
               "PKB" "B").
Defined.

(** A height without a producer key, whose block has a recognized output
    with an address, leaves the map as it is. *)
Lemma absent_producer_contributes_nothing node i d address :
  miner_at_height node i = None ->
  scan_transactions (transactions (block node (get_blockhash node i)))
  = Some (Ok address) ->
  outcome (scan_step node i d) = Ok d.
Proof.
  intros Hm Hs. unfold scan_step.
  rewrite outcome_bind, pubkey_and_address_outcome, Hs, Hm. reflexivity.
Qed.

(** A height whose block has no recognized output ends the scan. *)
Lemma missing_output_raises node i d :
  scan_transactions (transactions (block node (get_blockhash node i))) = None ->
  outcome (scan_step node i d) = Raise TypeError.
Proof.
  intros Hs. unfold scan_step.
  rewrite outcome_bind, pubkey_and_address_outcome, Hs. reflexivity.
Qed.

(** C2. On a window whose middle block has no output of a recognized type,
    [get_pubkey_and_address_for_height] returns [None] for that height, the
    tuple unpacking of the scan raises [TypeError], and the height after it
    is never queried. *)
Theorem missing_output_aborts_scan :
  outcome (get_pubkey_and_address_for_height chain_missing_output 11) = Ok None /\
  get_address_to_fedkey_map chain_missing_output 3
  = ([EvGetBlockCount;
      EvMinerAtHeight 10; EvGetBlockhash 10; EvBlock (hash_of_height 10);
      EvMinerAtHeight 11; EvGetBlockhash 11; EvBlock (hash_of_height 11)],
     Raise TypeError).
Proof. split; reflexivity. Qed.

(* ------------------------------------------------------------------ *)
(** ** Which output names the payout address *)

Lemma scan_vouts_app l1 l2 :
  scan_vouts (l1 ++ l2) =
  match scan_vouts l1 with Some r => Some r | None => scan_vouts l2 end.
Proof.
  induction l1 as [| v l1 IH]; simpl; [reflexivity |].
  destruct (recognized (script_pubkey v)); [| exact IH].
  now destruct (addresses (script_pubkey v)).
Qed.

(** The two nested loops visit the outputs of the block in block order. *)
Lemma scan_transactions_concat txs :
  scan_transactions txs = scan_vouts (List.concat (map vout txs)).
Proof.
  induction txs as [| tx txs IH]; simpl; [reflexivity |].
  rewrite scan_vouts_app, IH. reflexivity.
Qed.

Lemma scan_vouts_first vouts a :
  scan_vouts vouts = Some (Ok a) <->
  exists pre v post,
    vouts = pre ++ v :: post /\
    Forall (fun u => recognized (script_pubkey u) = false) pre /\
    recognized (script_pubkey v) = true /\
    hd_error (addresses (script_pubkey v)) = Some a.
Proof.
  induction vouts as [| u vouts IH]; simpl.
  - split; [discriminate |]. intros (pre & v & post & H & _).
    destruct pre; discriminate.
  - destruct (recognized (script_pubkey u)) eqn:Hu.
    + split.
      * intros H. exists [], u, vouts. repeat split; auto.
        destruct (addresses (script_pubkey u)); now inversion H.
      * intros (pre & v & post & H & Hpre & Hv & Ha).
        destruct pre as [| p pre]; simpl in H; inversion H; subst.
        -- destruct (addresses (script_pubkey v)); simpl in Ha; now inversion Ha.
        -- inversion Hpre; subst. congruence.
    + rewrite IH. split.
      * intros (pre & v & post & -> & Hpre & Hv & Ha).
        exists (u :: pre), v, post. repeat split; auto.
      * intros (pre & v & post & H & Hpre & Hv & Ha).
        destruct pre as [| p pre]; simpl in H; inversion H; subst.
        -- congruence.
        -- inversion Hpre; subst. exists pre, v, post. repeat split; auto.
Qed.

(** C10 (amended). For every scanned height the function returns the
    producer key of the height with the first address of the first output,
    in block order over all the transactions of the block, whose script type
    is a recognized one; once the first transaction has a recognized output
    the later transactions are not used. *)
Theorem payout_address_is_first_recognized_output :
  (forall node height pk a,
     outcome (get_pubkey_and_address_for_height node height)
     = Ok (Some (pk, a)) <->
     pk = miner_at_height node height /\
     exists pre v post,
       List.concat (map vout (transactions (block node (get_blockhash node height))))
       = pre ++ v :: post /\
       Forall (fun u => recognized (script_pubkey u) = false) pre /\
       recognized (script_pubkey v) = true /\
       hd_error (addresses (script_pubkey v)) = Some a) /\
  (forall tx rest rest',
     scan_vouts (vout tx) <> None ->
     scan_transactions (tx :: rest) = scan_transactions (tx :: rest')).
Proof.
  split.
  - intros node height pk a. rewrite pubkey_and_address_outcome.
    rewrite <- scan_vouts_first, <- scan_transactions_concat.
    destruct (scan_transactions _) as [[a' | e] |]; split;
      try (intros [_ H]; discriminate); try discriminate.
    + intros H. inversion H; auto.
    + intros [-> H]. inversion H; auto.
  - intros tx rest rest' H. simpl. destruct (scan_vouts (vout tx)); congruence.
Qed.

Lemma payout_address_is_first_recognized_output_witness :
  scan_transactions ({| vout := [output "pubkey" ["A"]] |} :: [])
  = scan_transactions
      ({| vout := [output "pubkey" ["A"]] |}
       :: [ {| vout := [output "pubkey" ["B"]] |} ]).
Proof.
  apply (proj2 payout_address_is_first_recognized_output). simpl. discriminate.
Defined.

(** C10, as stated, fails: the first transaction of the block at height 20
    has no recognized output, and the height still contributes the address
    of the second transaction. *)
Lemma later_transaction_output_is_used :
  ~ (forall node i d tx rest,
       transactions (block node (get_blockhash node i)) = tx :: rest ->
       scan_vouts (vout tx) = None ->
       outcome (scan_step node i d) = Ok d).
Proof.
  intros H.
  specialize (H chain_later_transaction 20 Dict.empty _ _ eq_refl eq_refl).
  vm_compute in H. discriminate.
Qed.

(* ------------------------------------------------------------------ *)
(** ** The last completed proposal *)

Lemma completed_step_outcome node tip index best :
  outcome (completed_step node tip index best) =
  Ok (if (GetVotingDeadline node (index + 1) <? tip)
         && negb (GetVotingDeadline node (index + 1) =? 0)
      then index + 1 else best).
Proof.
  unfold completed_step, get_proposal_ending_height. rewrite outcome_bind.
  simpl. now destruct (_ && _).
Qed.

Lemma completed_test node p :
  (GetVotingDeadline node p <? get_block_count node)
  && negb (GetVotingDeadline node p =? 0) = true <-> completed node p.
Proof.
  unfold completed. rewrite andb_true_iff, negb_true_iff, Z.ltb_lt, Z.eqb_neq.
  tauto.
Qed.

(** The loop of the locator returns the largest completed id of 1..H, or 1
    when there is none. *)
Lemma last_completed_spec node H :
  exists B,
    outcome (get_last_completed_proposal_id node H) = Ok B /\
    ((1 <= B <= H /\ completed node B /\
      forall p, B < p <= H -> ~ completed node p) \/
     (B = 1 /\ forall p, 1 <= p <= H -> ~ completed node p)).
Proof.
  unfold get_last_completed_proposal_id.
  rewrite outcome_bind. simpl. set (tip := get_block_count node).
  destruct (for_each_total (completed_step node tip) (range0 H) 1) as (B & HB).
  { intros x s. rewrite completed_step_outcome. eauto. }
  exists B. split; [exact HB |].
  pose (I := fun (h : Z) (b : Z) =>
    (1 <= b <= h /\ completed node b /\
     forall p, b < p <= h -> ~ completed node p) \/
    (b = 1 /\ forall p, 1 <= p <= h -> ~ completed node p)).
  assert (G : I (Z.max 0 H) B).
  { unfold range0 in HB. eapply for_range_invariant with (I := I); [| | exact HB].
    - right. split; [reflexivity | intros; lia].
    - intros h s1 s2 Hr HI Hs. rewrite completed_step_outcome in Hs.
      inversion Hs as [Es]. clear Hs Es. fold tip. unfold I.
      destruct (_ && _) eqn:Et.
      + left. apply completed_test in Et.
        split; [lia |]. split; [exact Et |]. intros p Hp. lia.
      + assert (Hn : ~ completed node (h + 1)).
        { intros Hc. apply completed_test in Hc. fold tip in Hc. congruence. }
        destruct HI as [(Hb & Hc & Hlater) | (-> & Hnone)].
        * left. split; [lia |]. split; [exact Hc |]. intros p Hp.
          assert (p <= h \/ p = h + 1) as [? | ->] by lia; auto.
          apply Hlater; lia.
        * right. split; auto. intros p Hp.
          assert (p <= h \/ p = h + 1) as [? | ->] by lia; auto.
          apply Hnone; lia. }
  destruct G as [(Hb & Hc & Hlater) | (-> & Hnone)].
  - left. split; [lia |]. split; [exact Hc |]. intros p Hp. apply Hlater. lia.
  - right. split; auto. intros p Hp. apply Hnone. lia.
Qed.

(** C3. For every highest proposal id H and every assignment of ending
    heights, [get_last_completed_proposal_id] returns; its result is the
    largest id in 1..H whose ending height is nonzero and strictly below the
    current chain height, and it is 1 when no id in 1..H qualifies; for the
    ending heights [50, 80, 120, 150, 0] and the height 160 it is 4. *)
Theorem last_completed_proposal_id_is_largest_completed :
  (forall node H, exists B,
     outcome (get_last_completed_proposal_id node H) = Ok B /\
     ((1 <= B <= H /\ completed node B /\
       forall p, B < p <= H -> ~ completed node p) \/
      (B = 1 /\ forall p, 1 <= p <= H -> ~ completed node p))) /\
  outcome (get_last_completed_proposal_id chain_5_proposals 5) = Ok 4.
Proof.
  split; [| reflexivity].
  intros node H. apply last_completed_spec.
Qed.

(* ------------------------------------------------------------------ *)
(** ** The report *)

Lemma ltb_le a b : String.ltb a b = true -> str_le a b.
Proof.
  unfold String.ltb, str_le, String.leb. now destruct (String.compare a b).
Qed.

Lemma not_ltb_ge a b : String.ltb a b = false -> str_le b a.
Proof.
  unfold String.ltb, str_le, String.leb. rewrite (String.compare_antisym b a).
  now destruct (String.compare a b).
Qed.

Lemma insert_perm x l : Permutation (insert x l) (x :: l).
Proof.
  induction l as [| y l IH]; simpl; [reflexivity |].
  destruct (String.ltb x y); [reflexivity |].
  rewrite IH. apply perm_swap.
Qed.

Lemma insert_HdRel a x l :
  str_le a x -> HdRel str_le a l -> HdRel str_le a (insert x l).
Proof.
  intros Hax Hl. destruct l as [| y l]; simpl.
  - now constructor.
  - destruct (String.ltb x y); constructor; auto. now inversion Hl.
Qed.

Lemma insert_sorted x l : Sorted str_le l -> Sorted str_le (insert x l).
Proof.
  induction l as [| y l IH]; simpl; intros Hs.
  - repeat constructor.
  - inversion Hs; subst. destruct (String.ltb x y) eqn:E.
    + constructor; [assumption |]. constructor. now apply ltb_le.
    + constructor; [auto |]. apply insert_HdRel; [now apply not_ltb_ge | assumption].
Qed.

Lemma sort_from_sorted l acc :
  Sorted str_le acc ->
  Sorted str_le (fold_left (fun acc x => insert x acc) l acc) /\
  Permutation (fold_left (fun acc x => insert x acc) l acc) (l ++ acc).
Proof.
  revert acc. induction l as [| x l IH]; intros acc Hacc; simpl.
  - split; [assumption | reflexivity].
  - destruct (IH (insert x acc) (insert_sorted x acc Hacc)) as [Hs Hp].
    split; [exact Hs |]. rewrite Hp, insert_perm.
    symmetry. apply Permutation_middle.
Qed.

Lemma sort_sorted l : Sorted str_le (sort l).
Proof. apply (sort_from_sorted l []). constructor. Qed.

Lemma sort_perm l : Permutation (sort l) l.
Proof.
  unfold sort. destruct (sort_from_sorted l [] (Sorted_nil _)) as [_ H].
  now rewrite app_nil_r in H.
Qed.

Lemma ltb_bullet a b : String.ltb (bullet a) (bullet b) = String.ltb a b.
Proof. reflexivity. Qed.

Lemma insert_bullet x l :
  insert (bullet x) (map bullet l) = map bullet (insert x l).
Proof.
  induction l as [| y l IH]; simpl; [reflexivity |].
  rewrite ltb_bullet. destruct (String.ltb x y); simpl; [reflexivity |].
  now rewrite IH.
Qed.

(** Sorting the bullets is sorting the keys. *)
Lemma sort_bullets l : sort (map bullet l) = map bullet (sort l).
Proof.
  unfold sort. change (@nil string) with (map bullet []) at 1.
  generalize (@nil string) as acc.
  induction l as [| x l IH]; intros acc; simpl; [reflexivity |].
  rewrite insert_bullet. apply IH.
Qed.

(** C8. For every list of flagged keys the report is the header line
    followed by one bullet per key, the keys in ascending lexicographic
    order, joined by newlines; for the keys zzz111, aaa999 it is the header,
    then the bullet of aaa999, then the bullet of zzz111. *)
Theorem report_is_header_and_sorted_bullets :
  (forall keys, exists sorted,
     Permutation sorted keys /\ Sorted str_le sorted /\
     markdown_format_output keys
     = String.concat newline (header :: map bullet sorted)) /\
  markdown_format_output ["zzz111"; "aaa999"]
  = (header ++ newline ++ "- aaa999" ++ newline ++ "- zzz111")%string.
Proof.
  split; [| reflexivity].
  intros keys. exists (sort keys).
  split; [apply sort_perm |]. split; [apply sort_sorted |].
  unfold markdown_format_output. now rewrite sort_bullets.
Qed.

(* ------------------------------------------------------------------ *)
(** ** The inversion of the key-to-address map *)

Lemma scan_step_wf node i d d' :
  Dict.wf d -> outcome (scan_step node i d) = Ok d' -> Dict.wf d'.
Proof.
  intros Hd Hs. apply scan_step_Ok in Hs. destruct Hs as (a & _ & ->).
  destruct (miner_at_height node i); [| assumption].
  destruct (Dict.mem d s); [assumption | now apply wf_set].
Qed.

Lemma scan_wf node lookback m :
  outcome (scan_fedkey_to_address_map node lookback) = Ok m -> Dict.wf m.
Proof.
  unfold scan_fedkey_to_address_map. rewrite outcome_bind. simpl. intros Hrun.
  eapply (for_each_invariant (fun _ d => Dict.wf d)); [| | exact Hrun].
  - constructor.
  - intros pre x s1 s2 Hs1 Hs. eapply scan_step_wf; eauto.
Qed.

Section Inversion.

Lemma invert_from_sound d : forall acc a k,
  Dict.get (fold_left invert_step d acc) a = Some k ->
  In (k, a) d \/ Dict.get acc a = Some k.
Proof.
  induction d as [| [k0 a0] d IH]; intros acc a k H; simpl in *; [now right |].
  apply IH in H. destruct H as [H | H]; [now left; right |].
  unfold invert_step in H. simpl in H. rewrite get_set in H.
  destruct (String.eqb_spec a0 a) as [-> | Hne]; [| now right].
  inversion H; subst. now left; left.
Qed.

Lemma invert_from_wf d : forall acc,
  Dict.wf acc -> Dict.wf (fold_left invert_step d acc).
Proof.
  induction d as [| kv d IH]; intros acc Hacc; simpl; [assumption |].
  apply IH. now apply wf_set.
Qed.

Lemma invert_from_keeps d : forall acc a,
  Dict.mem acc a = true -> Dict.mem (fold_left invert_step d acc) a = true.
Proof.
  induction d as [| kv d IH]; intros acc a H; simpl; [assumption |].
  apply IH. now apply mem_set.
Qed.

Lemma invert_from_covers d : forall acc k a,
  In (k, a) d -> Dict.mem (fold_left invert_step d acc) a = true.
Proof.
  induction d as [| kv d IH]; intros acc k a H; simpl in *; [contradiction |].
  destruct H as [-> | H]; [| eauto].
  apply invert_from_keeps. unfold invert_step, Dict.mem. simpl.
  now rewrite get_set, String.eqb_refl.
Qed.

End Inversion.

(** C6 (amended). For every block sequence on which the scan returns, the
    intermediate map binds a key to one address and the inverted map binds
    an address to one key, a key recorded with that address; every recorded
    address is a key of the inverted map; and when no two recorded keys have
    the same address the inversion keeps every entry. *)
Theorem inversion_keeps_one_key_per_address :
  forall node lookback m,
    outcome (scan_fedkey_to_address_map node lookback) = Ok m ->
    Dict.wf m /\ Dict.wf (invert m) /\
    (forall a k, Dict.get (invert m) a = Some k -> Dict.get m k = Some a) /\
    (forall k a, Dict.get m k = Some a ->
                 exists k', Dict.get (invert m) a = Some k') /\
    ((forall k1 k2 a, Dict.get m k1 = Some a -> Dict.get m k2 = Some a ->
                      k1 = k2) ->
     forall k a, Dict.get m k = Some a -> Dict.get (invert m) a = Some k).
Proof.
  intros node lookback m Hrun. pose proof (scan_wf _ _ _ Hrun) as Hwf.
  assert (Hsound : forall a k, Dict.get (invert m) a = Some k ->
                               Dict.get m k = Some a).
  { intros a k H. apply invert_from_sound in H. destruct H as [H | H].
    - now apply In_get.
    - discriminate. }
  assert (Hcover : forall k a, Dict.get m k = Some a ->
                               exists k', Dict.get (invert m) a = Some k').
  { intros k a H. apply get_In in H.
    pose proof (invert_from_covers m Dict.empty k a H) as Hm.
    unfold Dict.mem in Hm. unfold invert, Dict.items.
    destruct (Dict.get _ a) as [k' |]; [eauto | discriminate]. }
  repeat split; auto.
  - apply invert_from_wf. constructor.
  - intros Hinj k a H. destruct (Hcover k a H) as (k' & Hk').
    rewrite Hk'. f_equal. apply (Hinj k' k a); auto.
Qed.

Lemma inversion_keeps_one_key_per_address_witness :
  Dict.get (invert [("PKA", "A"); ("PKB", "B"); ("PKC", "C")]) "B" = Some "PKB".
Proof.
  refine (proj2 (proj2 (proj2 (proj2
    (inversion_keeps_one_key_per_address chain_100_104 5
       [("PKA", "A"); ("PKB", "B"); ("PKC", "C")] eq_refl)))) _ "PKB" "B" eq_refl).
  intros k1 k2 a H1 H2. apply get_In in H1, H2. simpl in H1, H2.
  intuition congruence.
Defined.

(** C6, as stated, fails: the producers of the heights 30 and 31 are paid
    to the same address, both keys are recorded with it, and the inversion
    keeps the second key only. *)
Lemma shared_address_breaks_injectivity :
  ~ (forall node lookback m,
       outcome (scan_fedkey_to_address_map node lookback) = Ok m ->
       (forall k1 k2 a, Dict.get m k1 = Some a -> Dict.get m k2 = Some a ->
                        k1 = k2) /\
       (forall k a, Dict.get m k = Some a -> Dict.get (invert m) a = Some k)).
Proof.
  intros H.
  destruct (H chain_shared_address 2 [("PKA", "A"); ("PKB", "A")] eq_refl)
    as [Hinj _].
  specialize (Hinj "PKA" "PKB" "A" eq_refl eq_refl). discriminate.
Qed.

(* ------------------------------------------------------------------ *)
(** ** The delinquency detector *)

Lemma int_in_In x l : int_in x l = true <-> In x l.
Proof.
  unfold int_in. rewrite existsb_exists. split.
  - intros (y & Hy & E). apply Z.eqb_eq in E. now subst.
  - intros H. exists x. split; [assumption | apply Z.eqb_refl].
Qed.

Lemma str_in_In x l : str_in x l = true <-> In x l.
Proof.
  unfold str_in. rewrite existsb_exists. split.
  - intros (y & Hy & E). apply String.eqb_eq in E. now subst.
  - intros H. exists x. split; [assumption | apply String.eqb_refl].
Qed.

Lemma no_vote_in_last_3_spec B v :
  no_vote_in_last_3 B v = true <-> abstained_on_last_3 B v.
Proof.
  unfold no_vote_in_last_3, abstained_on_last_3.
  rewrite !andb_true_iff, !int_in_In. tauto.
Qed.

Lemma nonvoting_step_Ok a2f B kv acc acc' :
  outcome (nonvoting_step a2f B kv acc) = Ok acc' ->
  (abstained_on_last_3 B (snd kv) /\
   exists key, Dict.get a2f (fst kv) = Some key /\ acc' = acc ++ [key]) \/
  (~ abstained_on_last_3 B (snd kv) /\ acc' = acc).
Proof.
  unfold nonvoting_step. rewrite <- no_vote_in_last_3_spec.
  destruct (no_vote_in_last_3 B (snd kv)).
  - rewrite outcome_bind. unfold lift, Dict.subscript. simpl.
    destruct (Dict.get a2f (fst kv)) as [key |]; [| discriminate].
    intros H. inversion H. left. eauto.
  - intros H. inversion H. right. split; [discriminate | reflexivity].
Qed.

(** The flagged addresses of a prefix of the tabulation and their keys. *)
Lemma nonvoting_invariant a2f votes B keys :
  outcome (get_nonvoting_fedkeys_in_last_3_proposals a2f votes B) = Ok keys ->
  exists flagged,
    (forall addr, In addr flagged <->
       exists v, In (addr, v) (Dict.items votes) /\ abstained_on_last_3 B v) /\
    Forall2 (fun addr key => Dict.get a2f addr = Some key) flagged keys.
Proof.
  unfold get_nonvoting_fedkeys_in_last_3_proposals.
  apply (for_each_invariant (fun pre acc => exists flagged,
    (forall addr, In addr flagged <->
       exists v, In (addr, v) pre /\ abstained_on_last_3 B v) /\
    Forall2 (fun addr key => Dict.get a2f addr = Some key) flagged acc)).
  - exists []. split; [| constructor]. intros addr. simpl.
    split; [contradiction | intros (v & [] & _)].
  - intros pre [k v] s1 s2 (flagged & Hfl & Hkeys) Hs.
    apply nonvoting_step_Ok in Hs. simpl in Hs.
    destruct Hs as [(Hab & key & Hkey & ->) | (Hnab & ->)].
    + exists (flagged ++ [k]). split.
      * intros addr. rewrite in_app_iff, Hfl. simpl. split.
        -- intros [(v' & Hin & Hv') | [<- | []]].
           ++ exists v'. rewrite in_app_iff. auto.
           ++ exists v. rewrite in_app_iff. simpl. auto.
        -- intros (v' & Hin & Hv'). apply in_app_iff in Hin.
           destruct Hin as [Hin | [E | []]]; [left; eauto |].
           inversion E. auto.
      * apply Forall2_app; [assumption | repeat constructor; assumption].
    + exists flagged. split; [| assumption].
      intros addr. rewrite Hfl. split.
      * intros (v' & Hin & Hv'). exists v'. rewrite in_app_iff. auto.
      * intros (v' & Hin & Hv'). apply in_app_iff in Hin.
        destruct Hin as [Hin | [E | []]]; [eauto |].
        inversion E; subst. contradiction.
Qed.

(** The detector returns when every flagged address has a key. *)
Lemma nonvoting_total a2f B items : forall acc,
  (forall addr v, In (addr, v) items -> abstained_on_last_3 B v ->
                  Dict.get a2f addr <> None) ->
  exists keys, outcome (for_each items (nonvoting_step a2f B) acc) = Ok keys.
Proof.
  induction items as [| [k v] items IH]; intros acc Hkeys; simpl.
  - eauto.
  - rewrite outcome_bind.
    assert (E : exists acc', outcome (nonvoting_step a2f B (k, v) acc) = Ok acc').
    { unfold nonvoting_step. cbn [fst snd].
      destruct (no_vote_in_last_3 B v) eqn:Hc; [| eexists; reflexivity].
      apply no_vote_in_last_3_spec in Hc.
      rewrite outcome_bind. unfold lift, Dict.subscript. simpl.
      destruct (Dict.get a2f k) eqn:Hk; [eexists; reflexivity |].
      exfalso. apply (Hkeys k v); simpl; auto. }
    destruct E as (acc' & ->). apply IH.
    intros addr v' Hin. apply Hkeys. now right.
Qed.

(** C4. For every tabulation and every B: when the detector returns, the
    addresses it flags are exactly those whose NoVote list contains B, B-1
    and B-2, and the keys it reports are, in order, the keys these addresses
    have in the address-to-key map; it returns whenever every such address
    has a key; for B = 5 an address with NoVote = [5,4,3] is flagged and an
    address with NoVote = [5,4], Yes = [3] is not. *)
Theorem flagged_iff_abstained_on_last_3 :
  (forall a2f votes B keys,
     outcome (get_nonvoting_fedkeys_in_last_3_proposals a2f votes B) = Ok keys ->
     exists flagged,
       (forall addr, In addr flagged <->
          exists v, In (addr, v) (Dict.items votes) /\
                    In B (NoVote v) /\ In (B - 1) (NoVote v) /\
                    In (B - 2) (NoVote v)) /\
       Forall2 (fun addr key => Dict.get a2f addr = Some key) flagged keys) /\
  (forall a2f votes B,
     (forall addr v, In (addr, v) (Dict.items votes) ->
                     abstained_on_last_3 B v -> Dict.get a2f addr <> None) ->
     exists keys,
       outcome (get_nonvoting_fedkeys_in_last_3_proposals a2f votes B) = Ok keys) /\
  outcome (get_nonvoting_fedkeys_in_last_3_proposals
             [("X", "KX"); ("Y", "KY")]
             [("X", {| NoVote := [5; 4; 3]; No := []; Yes := [] |});
              ("Y", {| NoVote := [5; 4]; No := []; Yes := [3] |})] 5)
  = Ok ["KX"].
Proof.
  split; [| split; [| reflexivity]].
  - intros a2f votes B keys H. apply (nonvoting_invariant a2f votes B keys H).
  - intros a2f votes B H. apply nonvoting_total. exact H.
Qed.

Lemma flagged_iff_abstained_on_last_3_witness :
  exists flagged,
    (forall addr, In addr flagged <->
       exists v, In (addr, v)
                    [("X", {| NoVote := [5; 4; 3]; No := []; Yes := [] |});
                     ("Y", {| NoVote := [5; 4]; No := []; Yes := [3] |})] /\
                 In 5 (NoVote v) /\ In (5 - 1) (NoVote v) /\
                 In (5 - 2) (NoVote v)) /\
    Forall2 (fun addr key => Dict.get [("X", "KX"); ("Y", "KY")] addr = Some key)
            flagged ["KX"].
Proof.
  apply (proj1 flagged_iff_abstained_on_last_3
           [("X", "KX"); ("Y", "KY")]
           [("X", {| NoVote := [5; 4; 3]; No := []; Yes := [] |});
            ("Y", {| NoVote := [5; 4]; No := []; Yes := [3] |})] 5 ["KX"]).
  reflexivity.
Defined.

(* ------------------------------------------------------------------ *)
(** ** The eligibility filter *)

Lemma In_set {V} (d : Dict.t V) k0 v0 k v :
  In (k, v) (Dict.set d k0 v0) -> (k, v) = (k0, v0) \/ In (k, v) d.
Proof.
  induction d as [| [k1 v1] d IH]; simpl.
  - intros [H | []]. left. now symmetry.
  - destruct (String.eqb_spec k1 k0) as [-> | Hne]; simpl.
    + intros [H | H]; [left; now symmetry | right; now right].
    + intros [H | H]; [right; now left |].
      destruct (IH H); [now left | right; now right].
Qed.

Lemma eligible_step_Ok a2f fed kv acc acc' :
  outcome (eligible_step a2f fed kv acc) = Ok acc' ->
  exists key, Dict.get a2f (fst kv) = Some key /\
    acc' = if str_in key fed then Dict.set acc (fst kv) (snd kv) else acc.
Proof.
  unfold eligible_step. rewrite outcome_bind. unfold lift, Dict.subscript. simpl.
  destruct (Dict.get a2f (fst kv)) as [key |]; [| discriminate].
  intros H. exists key. split; [reflexivity |].
  destruct (str_in key fed); now inversion H.
Qed.

Lemma filter_eligible_outcome node votes a2f B :
  outcome (filter_eligible_fedkeys node votes a2f B) =
  outcome (for_each (Dict.items votes)
             (eligible_step a2f
                (federation_at_height node (GetVotingDeadline node (B - 2))))
             Dict.empty).
Proof.
  unfold filter_eligible_fedkeys, get_proposal_ending_height.
  now rewrite !outcome_bind_call.
Qed.

(** Every entry the filter keeps is an entry of the tabulation whose
    address has a key in the federation of the checkpoint. *)
Lemma filter_eligible_sound node votes a2f B filtered :
  outcome (filter_eligible_fedkeys node votes a2f B) = Ok filtered ->
  forall k v, In (k, v) filtered ->
    In (k, v) (Dict.items votes) /\
    exists key, Dict.get a2f k = Some key /\
      In key (federation_at_height node (GetVotingDeadline node (B - 2))).
Proof.
  rewrite filter_eligible_outcome.
  set (fed := federation_at_height node (GetVotingDeadline node (B - 2))).
  apply (for_each_invariant (fun pre acc => forall k v, In (k, v) acc ->
    In (k, v) pre /\ exists key, Dict.get a2f k = Some key /\ In key fed)).
  - intros k v [].
  - intros pre [k0 v0] s1 s2 HI Hs k v Hin.
    apply eligible_step_Ok in Hs. destruct Hs as (key & Hkey & ->).
    simpl in *. rewrite in_app_iff.
    destruct (str_in key fed) eqn:Hfed.
    + apply In_set in Hin. destruct Hin as [E | Hin].
      * inversion E; subst. split; [right; now left |].
        exists key. split; [assumption | now apply str_in_In].
      * destruct (HI k v Hin) as [? ?]. split; auto.
    + destruct (HI k v Hin) as [? ?]. split; auto.
Qed.

(** The filter returns when every tabulated address has a key. *)
Lemma filter_eligible_total node votes a2f B :
  (forall k, In k (Dict.keys votes) -> Dict.get a2f k <> None) ->
  exists filtered,
    outcome (filter_eligible_fedkeys node votes a2f B) = Ok filtered.
Proof.
  rewrite filter_eligible_outcome.
  set (fed := federation_at_height node (GetVotingDeadline node (B - 2))).
  unfold Dict.items, Dict.keys. generalize (@Dict.empty Votes) as acc.
  induction votes as [| [k v] votes IH]; intros acc Hkeys; simpl.
  - eexists; reflexivity.
  - rewrite outcome_bind. unfold eligible_step at 1.
    rewrite outcome_bind. unfold lift, Dict.subscript. cbn [fst snd outcome].
    destruct (Dict.get a2f k) as [key |] eqn:Hk.
    + destruct (str_in key fed); simpl; apply IH;
        intros k' Hk'; apply Hkeys; now right.
    + exfalso. apply (Hkeys k); [now left | assumption].
Qed.

(** C7 (amended). For every tabulation, address-to-key map and B: an
    address whose key is not in the federation queried at the ending height
    of proposal B-2 has no entry in the vote record the filter hands to the
    detector, whatever votes it has cast, and its key is not among the
    flagged keys. *)
Theorem ineligible_address_is_never_flagged :
  forall node votes a2f B filtered keys addr k,
    outcome (filter_eligible_fedkeys node votes a2f B) = Ok filtered ->
    outcome (get_nonvoting_fedkeys_in_last_3_proposals a2f filtered B)
    = Ok keys ->
    Dict.get a2f addr = Some k ->
    ~ In k (federation_at_height node (GetVotingDeadline node (B - 2))) ->
    Dict.get filtered addr = None /\ ~ In k keys.
Proof.
  intros node votes a2f B filtered keys addr k Hfilter Hflag Hk Hout.
  pose proof (filter_eligible_sound _ _ _ _ _ Hfilter) as Hsound.
  split.
  - destruct (Dict.get filtered addr) as [v |] eqn:E; [| reflexivity].
    apply get_In in E. destruct (Hsound _ _ E) as (_ & key & Hkey & Hin).
    congruence.
  - intros Hin.
    destruct (nonvoting_invariant _ _ _ _ Hflag) as (flagged & Hfl & Hkeys).
    destruct (Forall2_In_r _ _ _ _ Hkeys Hin) as (addr' & Hin' & Hkey').
    apply Hfl in Hin'. destruct Hin' as (v & Hv & _).
    destruct (Hsound _ _ Hv) as (_ & key & Hkey & Hfed). congruence.
Qed.

(* ------------------------------------------------------------------ *)
(** ** The queries of the stages *)

Lemma trace_bind {A B} (m : M A) (f : A -> M B) :
  trace (bind m f) =
  trace m ++ match outcome m with Ok a => trace (f a) | Raise _ => [] end.
Proof.
  unfold trace, outcome, bind. destruct m as [t [a | e]]; simpl.
  - now destruct (f a).
  - now rewrite app_nil_r.
Qed.

Lemma Forall_trace_bind {A B} (P : Event -> Prop) (m : M A) (f : A -> M B) :
  Forall P (trace m) -> (forall a, Forall P (trace (f a))) ->
  Forall P (trace (bind m f)).
Proof.
  intros Hm Hf. rewrite trace_bind. apply Forall_app. split; [assumption |].
  destruct (outcome m); [apply Hf | constructor].
Qed.

Lemma Forall_trace_for_each {X S} (P : Event -> Prop) (body : X -> S -> M S)
  (xs : list X) :
  (forall x s, Forall P (trace (body x s))) ->
  forall s, Forall P (trace (for_each xs body s)).
Proof.
  intros Hb. induction xs as [| x xs IH]; intros s; simpl.
  - constructor.
  - apply Forall_trace_bind; auto.
Qed.

Lemma no_vote_queries t :
  Forall (fun ev => get_vote_query ev = []) t -> flat_map get_vote_query t = [].
Proof.
  induction 1 as [| ev t Hev _ IH]; simpl; [reflexivity |].
  now rewrite Hev, IH.
Qed.

Lemma silent_trace t : Forall (fun _ : Event => False) t -> t = [].
Proof. destruct 1; [reflexivity | contradiction]. Qed.

Lemma resolver_asks_no_vote node lookback :
  Forall (fun ev => get_vote_query ev = [])
         (trace (get_address_to_fedkey_map node lookback)).
Proof.
  unfold get_address_to_fedkey_map, scan_fedkey_to_address_map.
  apply Forall_trace_bind; [| intros; constructor].
  apply Forall_trace_bind; [repeat constructor | intros tip].
  apply Forall_trace_for_each. intros i d. unfold scan_step.
  apply Forall_trace_bind.
  - unfold get_pubkey_and_address_for_height.
    repeat (apply Forall_trace_bind; [repeat constructor | intros]).
    destruct (scan_transactions _) as [[? | ?] |]; constructor.
  - intros [[[pk |] a] |]; try constructor.
    destruct (negb _); constructor.
Qed.

Lemma locator_asks_no_vote node H :
  Forall (fun ev => get_vote_query ev = [])
         (trace (get_last_completed_proposal_id node H)).
Proof.
  unfold get_last_completed_proposal_id.
  apply Forall_trace_bind; [repeat constructor | intros tip].
  apply Forall_trace_for_each. intros i b. unfold completed_step.
  apply Forall_trace_bind; [repeat constructor | intros eh].
  destruct (_ && _); constructor.
Qed.

Lemma whitelist_asks_no_vote node l :
  Forall (fun ev => get_vote_query ev = [])
         (trace (find_whitelisted_federation_addresses node l)).
Proof.
  unfold find_whitelisted_federation_addresses.
  apply Forall_trace_for_each. intros a acc.
  apply Forall_trace_bind; [repeat constructor | intros w].
  destruct w; constructor.
Qed.

(** The filter asks for the deadline of proposal B-2 and for the federation
    at that height, and nothing else. *)
Lemma filter_trace node votes a2f B :
  trace (filter_eligible_fedkeys node votes a2f B) =
  [EvGetVotingDeadline (B - 2);
   EvFederationAtHeight (GetVotingDeadline node (B - 2))].
Proof.
  unfold filter_eligible_fedkeys, get_proposal_ending_height.
  rewrite !trace_bind_call. do 2 f_equal. apply silent_trace.
  apply Forall_trace_for_each. intros kv acc. unfold eligible_step.
  apply Forall_trace_bind; [constructor | intros key].
  destruct (str_in _ _); constructor.
Qed.

Lemma detector_trace a2f votes B :
  trace (get_nonvoting_fedkeys_in_last_3_proposals a2f votes B) = [].
Proof.
  apply silent_trace. unfold get_nonvoting_fedkeys_in_last_3_proposals.
  apply Forall_trace_for_each. intros kv acc. unfold nonvoting_step.
  destruct (no_vote_in_last_3 _ _); [| constructor].
  apply Forall_trace_bind; [constructor | intros; constructor].
Qed.

(* ------------------------------------------------------------------ *)
(** ** The whitelist filter and the tabulator *)

Lemma find_whitelisted_from node l : forall acc,
  outcome (for_each l
    (fun address federation_addresses =>
       is_whitelisted <- check_if_address_is_dao_whitelisted node address ;;
       if is_whitelisted then ret (federation_addresses ++ [address])
       else ret federation_addresses) acc)
  = Ok (acc ++ filter (IsWhitelisted node) l).
Proof.
  induction l as [| a l IH]; intros acc; cbn [for_each filter].
  - now rewrite app_nil_r.
  - rewrite outcome_bind. unfold check_if_address_is_dao_whitelisted at 1.
    rewrite outcome_bind_call.
    destruct (IsWhitelisted node a); cbn [outcome ret snd]; rewrite IH;
      [| reflexivity].
    now rewrite <- app_assoc.
Qed.

Lemma find_whitelisted_outcome node l :
  outcome (find_whitelisted_federation_addresses node l)
  = Ok (filter (IsWhitelisted node) l).
Proof. apply (find_whitelisted_from node l []). Qed.

Lemma tabulate_step_total node address index v :
  exists v', outcome (tabulate_step node address index v) = Ok v' /\
    forall p, In p (NoVote v') -> In p (NoVote v) \/ p = index + 1.
Proof.
  unfold tabulate_step, get_address_proposal_vote. rewrite outcome_bind_call.
  destruct (GetVote node (index + 1) address) as [[| [p | [p | p |] |] | p] |];
    eexists; (split; [reflexivity |]); simpl; auto.
  intros q Hq. apply in_app_iff in Hq. destruct Hq as [? | [<- | []]]; auto.
Qed.

Lemma tabulate_step_trace node address index v :
  flat_map get_vote_query (trace (tabulate_step node address index v))
  = [(index + 1, address)].
Proof.
  unfold tabulate_step, get_address_proposal_vote. rewrite trace_bind_call.
  destruct (GetVote node (index + 1) address) as [[| [p | [p | p |] |] | p] |];
    reflexivity.
Qed.

(** The votes of one address: the loop returns, and its NoVote list holds
    ids of 1..B only. *)
Lemma tabulate_votes_total node address B :
  exists v,
    outcome (for_each (range0 B) (tabulate_step node address) no_votes) = Ok v /\
    forall p, In p (NoVote v) -> 1 <= p <= B.
Proof.
  destruct (for_each_total (tabulate_step node address) (range0 B) no_votes)
    as (v & Hv).
  { intros x s. destruct (tabulate_step_total node address x s) as (v' & ? & _).
    eauto. }
  exists v. split; [assumption |].
  assert (G : forall p, In p (NoVote v) -> 1 <= p <= Z.max 0 B).
  { unfold range0 in Hv.
    eapply (for_range_invariant
              (fun h v => forall p, In p (NoVote v) -> 1 <= p <= h));
      [| | exact Hv].
    - intros p [].
    - intros h s1 s2 Hr HI Hs p Hp.
      destruct (tabulate_step_total node address h s1) as (v' & Hv' & Hno).
      rewrite Hv' in Hs. inversion Hs; subst.
      destruct (Hno p Hp) as [Hold | ->]; [apply HI in Hold |]; lia. }
  intros p Hp. specialize (G p Hp). lia.
Qed.

Lemma tabulate_address_outcome node B address d :
  exists v,
    outcome (tabulate_address node B address d) = Ok (Dict.set d address v) /\
    forall p, In p (NoVote v) -> 1 <= p <= B.
Proof.
  destruct (tabulate_votes_total node address B) as (v & Hv & Hno).
  exists v. split; [| assumption].
  unfold tabulate_address. now rewrite outcome_bind, Hv.
Qed.

(** The tabulation returns; its addresses are among those given and its
    NoVote lists hold ids of 1..B only. *)
Lemma tabulate_total node addresses B :
  exists votes,
    outcome (tabulate_fed_member_votes node addresses B) = Ok votes /\
    forall k v, In (k, v) votes ->
      In k addresses /\ forall p, In p (NoVote v) -> 1 <= p <= B.
Proof.
  unfold tabulate_fed_member_votes.
  destruct (for_each_total (tabulate_address node B) addresses Dict.empty)
    as (votes & Hv).
  { intros x s. destruct (tabulate_address_outcome node B x s) as (v & ? & _).
    eauto. }
  exists votes. split; [assumption |].
  eapply (for_each_invariant (fun pre d => forall k v, In (k, v) d ->
            In k pre /\ forall p, In p (NoVote v) -> 1 <= p <= B));
    [| | exact Hv].
  - intros k v [].
  - intros pre x s1 s2 HI Hs k v Hin.
    destruct (tabulate_address_outcome node B x s1) as (v' & Hv' & Hno).
    pose proof (eq_trans (eq_sym Hs) Hv') as E. inversion E; subst.
    clear E. rewrite in_app_iff.
    apply In_set in Hin. destruct Hin as [E | Hin].
    + inversion E; subst. split; [right; now left | assumption].
    + destruct (HI k v Hin). split; auto.
Qed.

(** One [GetVote] query per given address and proposal of 1..B. *)
Lemma tabulate_queries node addresses B :
  flat_map get_vote_query (trace (tabulate_fed_member_votes node addresses B))
  = flat_map (fun address => map (fun index => (index + 1, address)) (range0 B))
             addresses.
Proof.
  destruct (tabulate_total node addresses B) as (votes & Hv & _).
  unfold tabulate_fed_member_votes in *.
  apply (for_each_trace _ _ _ _ _ _ ) with (2 := Hv).
  intros address d d' Hd. unfold tabulate_address in *.
  destruct (tabulate_votes_total node address B) as (v & Hvotes & _).
  rewrite (trace_bind_Ok _ _ v Hvotes), flat_map_app. simpl.
  rewrite app_nil_r.
  rewrite (for_each_trace get_vote_query
             (fun index => [(index + 1, address)]) _ _ _ v);
    [| intros; apply tabulate_step_trace | assumption].
  generalize (range0 B) as l. intros l. induction l as [| i l IH]; simpl.
  - reflexivity.
  - now rewrite IH.
Qed.

(* ------------------------------------------------------------------ *)
(** ** The run *)

Lemma run_pair {A} (m : M A) t a :
  m = (t, Ok a) -> outcome m = Ok a /\ trace m = t.
Proof. intros ->. split; reflexivity. Qed.

(** A run that returns went through every stage, in this order. *)
Lemma vote_monitor_stages_Ok node t l :
  vote_monitor_stages node = (t, Ok l) ->
  let lookback := Z.of_nat (List.length (federation_members node)) * 3 in
  let a2f := address_to_fedkey_map l in
  let B := num_sda_proposals l in
  let whitelisted := current_whitelisted_fed_addresses l in
  outcome (get_address_to_fedkey_map node lookback) = Ok a2f /\
  outcome (get_last_completed_proposal_id node (LastProposalId node)) = Ok B /\
  whitelisted = filter (IsWhitelisted node) (Dict.keys a2f) /\
  outcome (tabulate_fed_member_votes node whitelisted B)
  = Ok (tabulated_votes l) /\
  outcome (filter_eligible_fedkeys node (tabulated_votes l) a2f B)
  = Ok (fed_member_votes l) /\
  outcome (get_nonvoting_fedkeys_in_last_3_proposals a2f (fed_member_votes l) B)
  = Ok (nonvoting_fedkeys l) /\
  t = EvFederationMembers
      :: trace (get_address_to_fedkey_map node lookback)
      ++ EvLastProposalId
      :: trace (get_last_completed_proposal_id node (LastProposalId node))
      ++ trace (find_whitelisted_federation_addresses node (Dict.keys a2f))
      ++ trace (tabulate_fed_member_votes node whitelisted B)
      ++ [EvGetVotingDeadline (B - 2);
          EvFederationAtHeight (GetVotingDeadline node (B - 2))].
Proof.
  unfold vote_monitor_stages, get_current_federation_pubkeys,
    get_last_proposal_id.
  intros H.
  apply bind_Ok in H. destruct H as (t0 & pks & t0' & E0 & H & ->).
  inversion E0; subst; clear E0.
  apply bind_Ok in H. destruct H as (t1 & a2f & t1' & E1 & H & ->).
  apply bind_Ok in H. destruct H as (t2 & hp & t2' & E2 & H & ->).
  inversion E2; subst; clear E2.
  apply bind_Ok in H. destruct H as (t3 & B & t3' & E3 & H & ->).
  apply bind_Ok in H. destruct H as (t4 & wl & t4' & E4 & H & ->).
  apply bind_Ok in H. destruct H as (t5 & votes & t5' & E5 & H & ->).
  apply bind_Ok in H. destruct H as (t6 & filtered & t6' & E6 & H & ->).
  apply bind_Ok in H. destruct H as (t7 & keys & t7' & E7 & H & ->).
  inversion H; subst; clear H. cbn [address_to_fedkey_map num_sda_proposals
    current_whitelisted_fed_addresses tabulated_votes fed_member_votes
    nonvoting_fedkeys].
  apply run_pair in E1, E3, E4, E5, E6, E7.
  destruct E1 as [O1 <-], E3 as [O3 <-], E4 as [O4 <-], E5 as [O5 <-],
    E6 as [O6 <-], E7 as [O7 <-].
  rewrite find_whitelisted_outcome in O4. inversion O4; subst wl.
  repeat (split; [assumption || reflexivity |]).
  rewrite filter_trace, detector_trace. reflexivity.
Qed.

Lemma length_range0 B : List.length (range0 B) = Z.to_nat B.
Proof.
  unfold range0, range. rewrite length_map, length_seq. f_equal. lia.
Qed.

Lemma length_queries {X} (f : Z -> X -> Z * X) (idx : list Z) (xs : list X) :
  List.length (flat_map (fun x => map (fun i => f i x) idx) xs)
  = (List.length xs * List.length idx)%nat.
Proof.
  induction xs as [| x xs IH]; simpl; [reflexivity |].
  now rewrite length_app, length_map, IH.
Qed.

Lemma run_returns_after_stages node t report :
  run_vote_monitor node = (t, Ok report) ->
  exists l, vote_monitor_stages node = (t, Ok l) /\
            report = markdown_format_output (nonvoting_fedkeys l).
Proof.
  unfold run_vote_monitor. intros H. apply bind_Ok in H.
  destruct H as (t1 & l & t2 & E & H & ->). inversion H; subst.
  exists l. now rewrite app_nil_r.
Qed.

(** The [GetVote] queries of a run that returns. *)
Lemma run_vote_queries node t l :
  vote_monitor_stages node = (t, Ok l) ->
  flat_map get_vote_query t
  = flat_map (fun address =>
                map (fun index => (index + 1, address))
                    (range0 (num_sda_proposals l)))
             (current_whitelisted_fed_addresses l).
Proof.
  intros H. apply vote_monitor_stages_Ok in H.
  destruct H as (_ & _ & _ & _ & _ & _ & ->).
  cbn [flat_map get_vote_query app].
  rewrite flat_map_app. cbn [flat_map get_vote_query app].
  rewrite !flat_map_app.
  rewrite (no_vote_queries _ (resolver_asks_no_vote _ _)).
  rewrite (no_vote_queries _ (locator_asks_no_vote _ _)).
  rewrite (no_vote_queries _ (whitelist_asks_no_vote _ _)).
  rewrite tabulate_queries. simpl. now rewrite app_nil_r.
Qed.

(** C5 (amended). In every run that returns, the votes are tabulated for
    every whitelisted address and every proposal of 1..B before the
    eligibility filter is applied: the [GetVote] queries are one per
    whitelisted address and proposal, their number is the number of
    whitelisted addresses times B, and the two queries of the eligibility
    filter are the last queries of the run. *)
Theorem vote_queries_cover_whitelisted_addresses :
  forall node t report,
    run_vote_monitor node = (t, Ok report) ->
    exists l,
      vote_monitor_stages node = (t, Ok l) /\
      let B := num_sda_proposals l in
      let whitelisted := current_whitelisted_fed_addresses l in
      flat_map get_vote_query t
      = flat_map (fun address =>
                    map (fun index => (index + 1, address)) (range0 B))
                 whitelisted /\
      List.length (flat_map get_vote_query t)
      = (List.length whitelisted * Z.to_nat B)%nat /\
      exists t',
        t = t' ++ [EvGetVotingDeadline (B - 2);
                   EvFederationAtHeight (GetVotingDeadline node (B - 2))].
Proof.
  intros node t report Hrun.
  destruct (run_returns_after_stages _ _ _ Hrun) as (l & Hl & _).
  exists l. split; [assumption |]. intros B whitelisted.
  pose proof (run_vote_queries _ _ _ Hl) as Hq. fold B whitelisted in Hq.
  split; [exact Hq |]. split.
  - now rewrite Hq, length_queries, length_range0, Nat.mul_comm, Nat.mul_comm.
  - apply vote_monitor_stages_Ok in Hl.
    destruct Hl as (_ & _ & _ & _ & _ & _ & ->). fold B whitelisted.
    set (t1 := trace (get_address_to_fedkey_map _ _)).
    set (t2 := trace (get_last_completed_proposal_id _ _)).
    set (t3 := trace (find_whitelisted_federation_addresses _ _)).
    set (t4 := trace (tabulate_fed_member_votes _ _ _)).
    exists (EvFederationMembers :: t1 ++ EvLastProposalId :: t2 ++ t3 ++ t4).
    cbn [app]. f_equal. rewrite <- app_assoc. f_equal. cbn [app]. f_equal.
    rewrite <- app_assoc. f_equal. rewrite <- app_assoc. reflexivity.
Qed.

Lemma vote_queries_cover_whitelisted_addresses_witness :
  exists l,
    vote_monitor_stages chain_two_voters
    = (trace (run_vote_monitor chain_two_voters), Ok l) /\
    let B := num_sda_proposals l in
    let whitelisted := current_whitelisted_fed_addresses l in
    flat_map get_vote_query (trace (run_vote_monitor chain_two_voters))
    = flat_map (fun address =>
                  map (fun index => (index + 1, address)) (range0 B))
               whitelisted /\
    List.length (flat_map get_vote_query (trace (run_vote_monitor chain_two_voters)))
    = (List.length whitelisted * Z.to_nat B)%nat /\
    exists t',
      trace (run_vote_monitor chain_two_voters)
      = t' ++ [EvGetVotingDeadline (B - 2);
               EvFederationAtHeight
                 (GetVotingDeadline chain_two_voters (B - 2))].
Proof.
  apply (vote_queries_cover_whitelisted_addresses chain_two_voters
           (trace (run_vote_monitor chain_two_voters))
           (markdown_format_output ["PKA"])).
  vm_compute. reflexivity.
Defined.

(** C5, as stated, fails: on a chain with two whitelisted addresses, one of
    them eligible, and B = 3 the run asks six votes, not three. *)
Lemma vote_queries_exceed_eligible_addresses :
  ~ (forall node t report,
       run_vote_monitor node = (t, Ok report) ->
       exists l,
         vote_monitor_stages node = (t, Ok l) /\
         List.length (flat_map get_vote_query t)
         = (List.length (Dict.keys (fed_member_votes l))
            * Z.to_nat (num_sda_proposals l))%nat).
Proof.
  intros H.
  assert (E : exists t rep, run_vote_monitor chain_two_voters = (t, Ok rep)).
  { vm_compute. do 2 eexists. reflexivity. }
  destruct E as (t & rep & E).
  destruct (H _ _ _ E) as (l & Hl & Hc).
  vm_compute in Hl. inversion Hl; subst. vm_compute in Hc. discriminate.
Qed.

Lemma ineligible_address_is_never_flagged_witness :
  Dict.get [("A", {| NoVote := [1; 2; 3]; No := []; Yes := [] |})] "B" = None /\
  ~ In "PKB" ["PKA"].
Proof.
  apply (ineligible_address_is_never_flagged chain_two_voters
           [("A", {| NoVote := [1; 2; 3]; No := []; Yes := [] |});
            ("B", {| NoVote := [1; 2; 3]; No := []; Yes := [] |})]
           [("A", "PKA"); ("B", "PKB")] 3
           [("A", {| NoVote := [1; 2; 3]; No := []; Yes := [] |})]
           ["PKA"] "B" "PKB").
  - reflexivity.
  - reflexivity.
  - reflexivity.
  - vm_compute. intros [H | []]. discriminate.
Defined.

(** C7, as stated, fails: the whitelisted address B, whose key PKB is not
    in the federation at the ending height of proposal 1, is tabulated all
    the same; the filter removes it afterwards. *)
Lemma ineligible_address_is_still_tabulated :
  ~ (forall node t l addr k,
       vote_monitor_stages node = (t, Ok l) ->
       In addr (current_whitelisted_fed_addresses l) ->
       Dict.get (address_to_fedkey_map l) addr = Some k ->
       ~ In k (federation_at_height node
                 (GetVotingDeadline node (num_sda_proposals l - 2))) ->
       Dict.get (tabulated_votes l) addr = None).
Proof.
  intros H.
  assert (E : exists t l, vote_monitor_stages chain_two_voters = (t, Ok l)).
  { vm_compute. do 2 eexists. reflexivity. }
  destruct E as (t & l & E).
  specialize (H chain_two_voters t l "B" "PKB" E).
  vm_compute in E. inversion E; subst. clear E.
  vm_compute in H.
  specialize (H (or_intror (or_introl eq_refl)) eq_refl).
  assert (Hout : ~ ("PKA" = "PKB" \/ False)) by (intros [D | []]; discriminate).
  specialize (H Hout). discriminate.
Qed.

(* ------------------------------------------------------------------ *)
(** ** A history of fewer than three completed proposals *)

(** Nobody is flagged when no entry abstained on B, B-1 and B-2. *)
Lemma nonvoting_none a2f B items : forall acc,
  (forall k v, In (k, v) items -> ~ abstained_on_last_3 B v) ->
  outcome (for_each items (nonvoting_step a2f B) acc) = Ok acc.
Proof.
  induction items as [| [k v] items IH]; intros acc Hno; [reflexivity |].
  cbn [for_each].
  assert (E : outcome (nonvoting_step a2f B (k, v) acc) = Ok acc).
  { unfold nonvoting_step. cbn [fst snd].
    destruct (no_vote_in_last_3 B v) eqn:Hc; [| reflexivity].
    apply no_vote_in_last_3_spec in Hc. exfalso. apply (Hno k v); simpl; auto. }
  rewrite (outcome_bind_eq _ _ _ E). apply IH.
  intros k' v' Hin. apply (Hno k' v'). now right.
Qed.

(** With B below 3, the run after the resolver: every later stage returns
    and nobody is flagged. *)
Lemma short_history_stages node B :
  outcome (get_last_completed_proposal_id node (LastProposalId node)) = Ok B ->
  B < 3 ->
  match outcome (get_address_to_fedkey_map node
                   (Z.of_nat (List.length (federation_members node)) * 3)) with
  | Ok _ => exists l, outcome (vote_monitor_stages node) = Ok l /\
                      nonvoting_fedkeys l = []
  | Raise e => outcome (vote_monitor_stages node) = Raise e
  end.
Proof.
  intros HB Hlt. unfold vote_monitor_stages, get_current_federation_pubkeys.
  rewrite outcome_bind_call. rewrite outcome_bind.
  destruct (outcome (get_address_to_fedkey_map node _)) as [a2f | e];
    [| reflexivity].
  unfold get_last_proposal_id. rewrite outcome_bind_call.
  rewrite (outcome_bind_eq _ _ _ HB).
  rewrite (outcome_bind_eq _ _ _ (find_whitelisted_outcome node (Dict.keys a2f))).
  destruct (tabulate_total node (filter (IsWhitelisted node) (Dict.keys a2f)) B)
    as (votes & Hv & Hvotes).
  rewrite (outcome_bind_eq _ _ _ Hv).
  destruct (filter_eligible_total node votes a2f B) as (filtered & Hf).
  { intros k Hk. apply in_map_iff in Hk. destruct Hk as ([k' v] & <- & Hin).
    destruct (Hvotes _ _ Hin) as [Hwl _]. apply filter_In in Hwl.
    destruct Hwl as [Hwl _]. intros Hnone. now apply get_None_keys in Hnone. }
  rewrite (outcome_bind_eq _ _ _ Hf).
  assert (Hnv : outcome (get_nonvoting_fedkeys_in_last_3_proposals a2f filtered B)
                = Ok []).
  { apply nonvoting_none. intros k v Hin (_ & _ & H2).
    destruct (filter_eligible_sound _ _ _ _ _ Hf _ _ Hin) as [Hin' _].
    destruct (Hvotes _ _ Hin') as [_ Hids]. apply Hids in H2. lia. }
  rewrite (outcome_bind_eq _ _ _ Hnv).
  eexists. split; reflexivity.
Qed.

(** C9 (amended). For every run in which the highest completed proposal id
    B is below 3, B is 1 or 2, so the id B-2 of the eligibility lookup is -1
    or 0 and the id B-1 of the last-three check is 0 or 1; the code raises
    no exception for them: no NoVote list holds an id below 1, nobody is
    flagged, and the run returns the header alone unless the resolver
    raised; the deadline of proposal B-2 is queried in every run that
    returns. *)
Theorem short_history_run_reports_nobody :
  forall node B,
    outcome (get_last_completed_proposal_id node (LastProposalId node)) = Ok B ->
    B < 3 ->
    (B = 1 \/ B = 2) /\
    (B - 2 = -1 \/ B - 2 = 0) /\ (B - 1 = 0 \/ B - 1 = 1) /\
    outcome (run_vote_monitor node)
    = match outcome (get_address_to_fedkey_map node
                       (Z.of_nat (List.length (federation_members node)) * 3)) with
      | Ok _ => Ok header
      | Raise e => Raise e
      end /\
    (forall t report, run_vote_monitor node = (t, Ok report) ->
       exists t',
         t = t' ++ [EvGetVotingDeadline (B - 2);
                    EvFederationAtHeight (GetVotingDeadline node (B - 2))]).
Proof.
  intros node B HB Hlt.
  assert (H12 : B = 1 \/ B = 2).
  { destruct (last_completed_spec node (LastProposalId node))
      as (B' & HB' & Hspec).
    assert (B' = B) as -> by congruence.
    destruct Hspec as [(? & _) | (-> & _)]; lia. }
  split; [exact H12 |]. split; [lia |]. split; [lia |]. split.
  - pose proof (short_history_stages node B HB Hlt) as Hs.
    unfold run_vote_monitor. rewrite outcome_bind.
    destruct (outcome (get_address_to_fedkey_map node _)) as [a2f | e].
    + destruct Hs as (l & -> & Hnone). now rewrite Hnone.
    + now rewrite Hs.
  - intros t report Hrun.
    destruct (run_returns_after_stages _ _ _ Hrun) as (l & Hl & _).
    apply vote_monitor_stages_Ok in Hl.
    destruct Hl as (_ & HB' & _ & _ & _ & _ & ->).
    assert (num_sda_proposals l = B) as -> by congruence.
    set (t1 := trace (get_address_to_fedkey_map _ _)).
    set (t2 := trace (get_last_completed_proposal_id _ _)).
    set (t3 := trace (find_whitelisted_federation_addresses _ _)).
    set (t4 := trace (tabulate_fed_member_votes _ _ _)).
    exists (EvFederationMembers :: t1 ++ EvLastProposalId :: t2 ++ t3 ++ t4).
    cbn [app]. f_equal. rewrite <- app_assoc. f_equal. cbn [app]. f_equal.
    rewrite <- app_assoc. f_equal. rewrite <- app_assoc. reflexivity.
Qed.

Lemma short_history_run_reports_nobody_witness :
  (2 = 1 \/ 2 = 2) /\
  outcome (run_vote_monitor chain_two_proposals) = Ok header.
Proof.
  destruct (short_history_run_reports_nobody chain_two_proposals 2)
    as (Hb & _ & _ & Hrun & _).
  - reflexivity.
  - lia.
  - split; [exact Hb | exact Hrun].
Defined.

(** C9, as stated, fails: with two completed proposals the ids B-2 and B-1
    are 0 and 1, neither of them negative. *)
Lemma short_history_ids_are_not_negative :
  ~ (forall node B,
       outcome (get_last_completed_proposal_id node (LastProposalId node))
       = Ok B ->
       B < 3 -> B - 2 < 0 /\ B - 1 < 0).
Proof.
  intros H. destruct (H chain_two_proposals 2 eq_refl) as [H2 _]; lia.
Qed.

(* ================================================================== *)
(** * Further properties of the stages *)

(* ------------------------------------------------------------------ *)
(** ** The whitelist filter *)

Lemma find_whitelisted_from_trace node l : forall acc,
  trace (for_each l
    (fun address federation_addresses =>
       is_whitelisted <- check_if_address_is_dao_whitelisted node address ;;
       if is_whitelisted then ret (federation_addresses ++ [address])
       else ret federation_addresses) acc)
  = map EvIsWhitelisted l.
Proof.
  induction l as [| a l IH]; intros acc; cbn [for_each map]; [reflexivity |].
  rewrite trace_bind.
  unfold check_if_address_is_dao_whitelisted at 1 2.
  rewrite trace_bind_call, outcome_bind_call.
  destruct (IsWhitelisted node a); cbn [ret trace outcome fst snd app];
    now rewrite IH.
Qed.

(** X1. When [find_whitelisted_federation_addresses] returns, it has asked
    the contract once per given address, in the given order, and its result
    is the addresses the contract whitelists, in the given order and with
    their repetitions. *)
Theorem whitelist_filter_keeps_order :
  forall node l t r,
    find_whitelisted_federation_addresses node l = (t, Ok r) ->
    t = map EvIsWhitelisted l /\ r = filter (IsWhitelisted node) l.
Proof.
  intros node l t r Hrun. apply run_pair in Hrun. destruct Hrun as [Ho Ht].
  rewrite find_whitelisted_outcome in Ho. inversion Ho. split; [| reflexivity].
  rewrite <- Ht. apply (find_whitelisted_from_trace node l []).
Qed.

Lemma whitelist_filter_keeps_order_witness :
  [EvIsWhitelisted "X"; EvIsWhitelisted "Q"; EvIsWhitelisted "Y";
   EvIsWhitelisted "X"]
  = map EvIsWhitelisted ["X"; "Q"; "Y"; "X"] /\
  ["X"; "Y"; "X"]
  = filter (IsWhitelisted chain_mixed_votes) ["X"; "Q"; "Y"; "X"].
Proof.
  apply (whitelist_filter_keeps_order chain_mixed_votes ["X"; "Q"; "Y"; "X"]).
  reflexivity.
Defined.

(* ------------------------------------------------------------------ *)
(** ** The locator *)

Lemma completed_step_trace node tip index best :
  trace (completed_step node tip index best) = [EvGetVotingDeadline (index + 1)].
Proof.
  unfold completed_step, get_proposal_ending_height. rewrite trace_bind_call.
  now destruct (_ && _).
Qed.

Lemma single_event_loop {X S} (ev : X -> Event) (body : X -> S -> M S) xs :
  (forall x s, trace (body x s) = [ev x]) ->
  (forall x s, exists s', outcome (body x s) = Ok s') ->
  forall s, trace (for_each xs body s) = map ev xs.
Proof.
  intros Ht Ho. induction xs as [| x xs IH]; intros s; cbn [for_each map].
  - reflexivity.
  - rewrite trace_bind, Ht. destruct (Ho x s) as (s' & ->). now rewrite IH.
Qed.

(** X2. [get_last_completed_proposal_id] never raises: it asks the chain
    height once and then the deadlines of the proposals 1..H in ascending
    order, and its result lies between 1 and max(1, H); for H below 1 it is
    1 and no deadline is asked. *)
Theorem locator_queries_and_bounds :
  forall node H, exists B,
    get_last_completed_proposal_id node H
    = (EvGetBlockCount :: map EvGetVotingDeadline (proposal_ids H), Ok B) /\
    1 <= B <= Z.max 1 H /\
    (H < 1 -> B = 1 /\ proposal_ids H = []).
Proof.
  intros node H.
  destruct (last_completed_spec node H) as (B & HB & Hspec).
  exists B. split; [| split].
  - assert (Ht : trace (get_last_completed_proposal_id node H)
                 = EvGetBlockCount :: map EvGetVotingDeadline (proposal_ids H)).
    { unfold get_last_completed_proposal_id. rewrite trace_bind_call. f_equal.
      unfold proposal_ids. rewrite map_map.
      apply single_event_loop.
      - intros. apply completed_step_trace.
      - intros. rewrite completed_step_outcome. eauto. }
    destruct (get_last_completed_proposal_id node H) as [t r].
    unfold outcome, trace in *. simpl in *. now subst.
  - destruct Hspec as [(? & _) | (-> & _)]; lia.
  - intros Hlt. split.
    + destruct Hspec as [(? & _) | (-> & _)]; lia.
    + unfold proposal_ids, range0. now rewrite range_nil by lia.
Qed.

Lemma locator_queries_and_bounds_witness :
  exists B,
    get_last_completed_proposal_id chain_5_proposals 0
    = (EvGetBlockCount :: map EvGetVotingDeadline (proposal_ids 0), Ok B) /\
    B = 1 /\ proposal_ids 0 = [].
Proof.
  destruct (locator_queries_and_bounds chain_5_proposals 0)
    as (B & Hrun & _ & Hlow).
  exists B. split; [exact Hrun |]. apply Hlow. lia.
Defined.

(* ------------------------------------------------------------------ *)
(** ** The tabulator *)

Lemma in_proposal_ids B p : In p (proposal_ids B) <-> 1 <= p <= B.
Proof.
  unfold proposal_ids, range0. rewrite in_map_iff. split.
  - intros (i & <- & Hi). apply in_range in Hi. lia.
  - intros Hp. exists (p - 1). split; [lia |]. apply in_range. lia.
Qed.

Lemma keys_set_iff {V} (d : Dict.t V) k v k' :
  In k' (Dict.keys (Dict.set d k v)) <-> k' = k \/ In k' (Dict.keys d).
Proof.
  destruct (Dict.get d k) eqn:E.
  - rewrite keys_set_present by congruence. split; [tauto |].
    intros [-> | H]; [| assumption].
    destruct (in_dec string_dec k (Dict.keys d)) as [Hin | Hout]; [assumption |].
    apply get_None_keys in Hout. congruence.
  - rewrite set_fresh by assumption. unfold Dict.keys. rewrite map_app, in_app_iff.
    simpl. intuition.
Qed.

(** One vote: the proposal id is appended to the list of its code. *)
Lemma tabulate_step_exact node address index v v' :
  outcome (tabulate_step node address index v) = Ok v' ->
  NoVote v' = NoVote v ++ filter (has_vote node address 0) [index + 1] /\
  No v' = No v ++ filter (has_vote node address 1) [index + 1] /\
  Yes v' = Yes v ++ filter (has_vote node address 2) [index + 1].
Proof.
  unfold tabulate_step, get_address_proposal_vote, has_vote.
  rewrite outcome_bind_call. cbn [filter].
  destruct (GetVote node (index + 1) address) as [[| [p | [p | p |] |] | p] |];
    intros H; inversion H; subst; cbn; now rewrite ?app_nil_r.
Qed.

Lemma tabulate_votes_exact node address B v :
  outcome (for_each (range0 B) (tabulate_step node address) no_votes) = Ok v ->
  NoVote v = filter (has_vote node address 0) (proposal_ids B) /\
  No v = filter (has_vote node address 1) (proposal_ids B) /\
  Yes v = filter (has_vote node address 2) (proposal_ids B).
Proof.
  unfold proposal_ids.
  apply (for_each_invariant (fun pre v =>
    NoVote v = filter (has_vote node address 0) (map (fun i => i + 1) pre) /\
    No v = filter (has_vote node address 1) (map (fun i => i + 1) pre) /\
    Yes v = filter (has_vote node address 2) (map (fun i => i + 1) pre))).
  - repeat split.
  - intros pre x s1 s2 (H0 & H1 & H2) Hs.
    apply tabulate_step_exact in Hs. destruct Hs as (E0 & E1 & E2).
    rewrite map_app, !filter_app, <- H0, <- H1, <- H2. auto.
Qed.

(** The tabulation: one entry per distinct address, holding for each vote
    code the proposals of 1..B the contract answers that code for. *)
Lemma tabulate_exact node addresses B votes :
  outcome (tabulate_fed_member_votes node addresses B) = Ok votes ->
  Dict.wf votes /\
  (forall k, In k (Dict.keys votes) <-> In k addresses) /\
  (forall k v, In (k, v) votes ->
     NoVote v = filter (has_vote node k 0) (proposal_ids B) /\
     No v = filter (has_vote node k 1) (proposal_ids B) /\
     Yes v = filter (has_vote node k 2) (proposal_ids B)).
Proof.
  unfold tabulate_fed_member_votes.
  apply (for_each_invariant (fun pre d =>
    Dict.wf d /\
    (forall k, In k (Dict.keys d) <-> In k pre) /\
    (forall k v, In (k, v) d ->
       NoVote v = filter (has_vote node k 0) (proposal_ids B) /\
       No v = filter (has_vote node k 1) (proposal_ids B) /\
       Yes v = filter (has_vote node k 2) (proposal_ids B)))).
  - split; [constructor |]. split; [intros k; simpl; tauto | intros k v []].
  - intros pre x s1 s2 (Hwf & Hkeys & Hvals) Hs.
    unfold tabulate_address in Hs. apply outcome_bind_Ok in Hs.
    destruct Hs as (v & Hv & Hret). inversion Hret; subst s2. clear Hret.
    apply tabulate_votes_exact in Hv.
    split; [now apply wf_set |]. split.
    + intros k. rewrite keys_set_iff, in_app_iff, Hkeys. simpl. intuition.
    + intros k v' Hin. apply In_set in Hin. destruct Hin as [E | Hin].
      * inversion E; subst. assumption.
      * now apply Hvals.
Qed.

(** X3. When [tabulate_fed_member_votes] returns, the tabulation has one
    entry per distinct given address, and the NoVote, No and Yes lists of an
    address are the proposals of 1..B, ascending, for which the contract
    answers 0, 1 and 2 for that address; a proposal with any other answer
    is in none of the three lists. *)
Theorem tabulation_buckets_by_vote_code :
  forall node addresses B votes,
    outcome (tabulate_fed_member_votes node addresses B) = Ok votes ->
    Dict.wf votes /\
    (forall k, In k (Dict.keys votes) <-> In k addresses) /\
    (forall k v, In (k, v) votes ->
       NoVote v = filter (has_vote node k 0) (proposal_ids B) /\
       No v = filter (has_vote node k 1) (proposal_ids B) /\
       Yes v = filter (has_vote node k 2) (proposal_ids B) /\
       forall p, has_vote node k 0 p = false -> has_vote node k 1 p = false ->
                 has_vote node k 2 p = false ->
                 ~ In p (NoVote v) /\ ~ In p (No v) /\ ~ In p (Yes v)).
Proof.
  intros node addresses B votes Hrun.
  destruct (tabulate_exact _ _ _ _ Hrun) as (Hwf & Hkeys & Hvals).
  split; [assumption |]. split; [assumption |].
  intros k v Hin. destruct (Hvals k v Hin) as (E0 & E1 & E2).
  repeat (split; [assumption |]).
  intros p H0 H1 H2. rewrite E0, E1, E2, !filter_In. intuition congruence.
Qed.

Lemma tabulation_buckets_by_vote_code_witness :
  Dict.wf [("X", {| NoVote := [1; 2; 3; 4]; No := []; Yes := [] |});
           ("Y", {| NoVote := [3]; No := [1]; Yes := [2] |})].
Proof.
  apply (tabulation_buckets_by_vote_code chain_mixed_votes ["X"; "Y"; "X"] 4).
  reflexivity.
Defined.

(* ------------------------------------------------------------------ *)
(** ** The eligibility filter, exactly *)

Lemma keys_app {V} (d1 d2 : Dict.t V) :
  Dict.keys (d1 ++ d2) = Dict.keys d1 ++ Dict.keys d2.
Proof. unfold Dict.keys. apply map_app. Qed.

Lemma keys_filter {V} (f : string * V -> bool) (d : Dict.t V) k :
  In k (Dict.keys (filter f d)) -> In k (Dict.keys d).
Proof.
  unfold Dict.keys. rewrite !in_map_iff. intros (kv & E & Hin).
  apply filter_In in Hin. exists kv. tauto.
Qed.

Lemma filter_eligible_from a2f fed items : forall acc,
  NoDup (Dict.keys items) ->
  (forall k, In k (Dict.keys items) -> ~ In k (Dict.keys acc)) ->
  outcome (for_each items (eligible_step a2f fed) acc)
  = if forallb (Dict.mem a2f) (Dict.keys items)
    then Ok (acc ++ filter (eligible a2f fed) items)
    else Raise KeyError.
Proof.
  induction items as [| [k v] items IH]; intros acc Hnd Hfresh.
  - cbn. now rewrite app_nil_r.
  - cbn [for_each]. rewrite outcome_bind.
    change (Dict.keys ((k, v) :: items)) with (k :: Dict.keys items) in *.
    cbn [forallb filter].
    inversion Hnd as [| ? ? Hk_rest Hnd']; subst.
    destruct (Dict.get a2f k) as [key |] eqn:Hk.
    + assert (Hmem : Dict.mem a2f k = true) by (unfold Dict.mem; now rewrite Hk).
      assert (Hel : eligible a2f fed (k, v) = str_in key fed)
        by (unfold eligible; cbn [fst]; now rewrite Hk).
      assert (Hstep : outcome (eligible_step a2f fed (k, v) acc)
                      = Ok (if str_in key fed then Dict.set acc k v else acc)).
      { unfold eligible_step. rewrite outcome_bind.
        unfold lift, Dict.subscript. cbn [fst snd outcome]. rewrite Hk.
        now destruct (str_in key fed). }
      rewrite Hmem, Hel, Hstep. cbn [andb].
      destruct (str_in key fed).
      * assert (Hacc : Dict.get acc k = None).
        { apply get_None_keys. apply Hfresh. now left. }
        rewrite (set_fresh _ _ _ Hacc), IH; auto.
        -- destruct (forallb _ _); [| reflexivity]. now rewrite <- app_assoc.
        -- intros k' Hk'. rewrite keys_app, in_app_iff. simpl.
           intros [Hin | [<- | []]]; [| contradiction].
           apply (Hfresh k'); [now right | assumption].
      * rewrite IH; auto. intros k' Hk'. apply Hfresh. now right.
    + assert (Hmem : Dict.mem a2f k = false) by (unfold Dict.mem; now rewrite Hk).
      rewrite Hmem. cbn [andb]. unfold eligible_step. rewrite outcome_bind.
      unfold lift, Dict.subscript. cbn [fst snd outcome]. now rewrite Hk.
Qed.

(** X4. On a tabulation with distinct addresses, [filter_eligible_fedkeys]
    raises [KeyError] when some tabulated address has no key in the
    address-to-key map, whether or not the others are eligible; otherwise
    it returns the entries whose key is in the federation at the ending
    height of proposal B-2, in the order of the tabulation and with their
    vote lists unchanged. *)
Theorem eligibility_filter_exact :
  forall node votes a2f B,
    Dict.wf votes ->
    outcome (filter_eligible_fedkeys node votes a2f B)
    = if forallb (Dict.mem a2f) (Dict.keys votes)
      then Ok (filter
                 (eligible a2f
                    (federation_at_height node (GetVotingDeadline node (B - 2))))
                 votes)
      else Raise KeyError.
Proof.
  intros node votes a2f B Hwf. rewrite filter_eligible_outcome.
  unfold Dict.items.
  rewrite (filter_eligible_from a2f _ votes Dict.empty Hwf); [reflexivity |].
  intros k _ [].
Qed.

Lemma eligibility_filter_exact_witness :
  outcome (filter_eligible_fedkeys chain_two_voters
             [("A", no_votes); ("C", no_votes)] [("A", "PKA")] 3)
  = Raise KeyError.
Proof.
  apply (eligibility_filter_exact chain_two_voters
           [("A", no_votes); ("C", no_votes)] [("A", "PKA")] 3).
  repeat constructor; simpl; intuition discriminate.
Defined.

(* ------------------------------------------------------------------ *)
(** ** When the detector raises *)

Lemma nonvoting_raises a2f B items : forall acc e,
  outcome (for_each items (nonvoting_step a2f B) acc) = Raise e <->
  e = KeyError /\
  exists k v, In (k, v) items /\ abstained_on_last_3 B v /\
              Dict.get a2f k = None.
Proof.
  induction items as [| [k v] items IH]; intros acc e.
  - cbn. split; [discriminate | intros (_ & k & v & [] & _)].
  - cbn [for_each]. rewrite outcome_bind. unfold nonvoting_step at 1.
    cbn [fst snd].
    destruct (no_vote_in_last_3 B v) eqn:Hc.
    + rewrite outcome_bind. unfold lift, Dict.subscript. cbn [outcome snd].
      destruct (Dict.get a2f k) as [key |] eqn:Hk; cbn [outcome ret snd].
      * rewrite IH. split.
        -- intros (-> & k' & v' & Hin & Hab & Hnone).
           split; [reflexivity |]. exists k', v'. simpl. auto.
        -- intros (-> & k' & v' & [E | Hin] & Hab & Hnone).
           ++ inversion E; subst. congruence.
           ++ split; [reflexivity |]. exists k', v'. auto.
      * split.
        -- intros H. inversion H. split; [reflexivity |].
           exists k, v. split; [now left |].
           split; [now apply no_vote_in_last_3_spec in Hc | assumption].
        -- intros (-> & _). reflexivity.
    + cbn [outcome ret snd]. rewrite IH. split.
      * intros (-> & k' & v' & Hin & Hab & Hnone).
        split; [reflexivity |]. exists k', v'. simpl. auto.
      * intros (-> & k' & v' & [E | Hin] & Hab & Hnone).
        -- inversion E; subst. apply no_vote_in_last_3_spec in Hab. congruence.
        -- split; [reflexivity |]. exists k', v'. auto.
Qed.

(** X5. [get_nonvoting_fedkeys_in_last_3_proposals] raises exactly when
    some address whose NoVote list holds B, B-1 and B-2 has no key in the
    address-to-key map, and then it raises [KeyError]; an address without a
    key that is not to be flagged does not make it raise. *)
Theorem detector_raises_only_for_flagged_address_without_key :
  forall a2f votes B e,
    outcome (get_nonvoting_fedkeys_in_last_3_proposals a2f votes B) = Raise e <->
    e = KeyError /\
    exists k v, In (k, v) (Dict.items votes) /\ abstained_on_last_3 B v /\
                Dict.get a2f k = None.
Proof.
  intros a2f votes B e. apply nonvoting_raises.
Qed.

(* ------------------------------------------------------------------ *)
(** ** Blocks without a payout address *)

Lemma scan_vouts_None vouts :
  scan_vouts vouts = None <->
  Forall (fun u => recognized (script_pubkey u) = false) vouts.
Proof.
  induction vouts as [| u vouts IH]; simpl.
  - split; [constructor | reflexivity].
  - destruct (recognized (script_pubkey u)) eqn:Hu.
    + split.
      * destruct (addresses (script_pubkey u)); discriminate.
      * intros H. inversion H; subst. congruence.
    + rewrite IH. split.
      * intros H. now constructor.
      * intros H. now inversion H.
Qed.

Lemma scan_vouts_Raise vouts e :
  scan_vouts vouts = Some (Raise e) <->
  e = IndexError /\
  exists pre v post,
    vouts = pre ++ v :: post /\
    Forall (fun u => recognized (script_pubkey u) = false) pre /\
    recognized (script_pubkey v) = true /\
    addresses (script_pubkey v) = [].
Proof.
  induction vouts as [| u vouts IH]; simpl.
  - split; [discriminate |]. intros (_ & pre & v & post & H & _).
    destruct pre; discriminate.
  - destruct (recognized (script_pubkey u)) eqn:Hu.
    + split.
      * destruct (addresses (script_pubkey u)) eqn:Ha; intros H; inversion H.
        split; [reflexivity |]. exists [], u, vouts. repeat split; auto.
      * intros (-> & pre & v & post & H & Hpre & Hv & Ha).
        destruct pre as [| p pre]; simpl in H; inversion H; subst.
        -- now rewrite Ha.
        -- inversion Hpre; subst. congruence.
    + rewrite IH. split.
      * intros (-> & pre & v & post & -> & Hpre & Hv & Ha).
        split; [reflexivity |]. exists (u :: pre), v, post. repeat split; auto.
      * intros (-> & pre & v & post & H & Hpre & Hv & Ha).
        destruct pre as [| p pre]; simpl in H; inversion H; subst.
        -- congruence.
        -- inversion Hpre; subst. split; [reflexivity |].
           exists pre, v, post. repeat split; auto.
Qed.

(** X6. [get_pubkey_and_address_for_height] returns [None] exactly when no
    output of any transaction of the block has a recognized script type;
    and when the first recognized output, in block order, has an empty
    address list it raises [IndexError], also when a later recognized output
    has an address. *)
Theorem height_without_payout_address :
  forall node height,
    let outputs :=
      List.concat
        (map vout (transactions (block node (get_blockhash node height)))) in
    (outcome (get_pubkey_and_address_for_height node height) = Ok None <->
     Forall (fun u => recognized (script_pubkey u) = false) outputs) /\
    (forall pre v post,
       outputs = pre ++ v :: post ->
       Forall (fun u => recognized (script_pubkey u) = false) pre ->
       recognized (script_pubkey v) = true ->
       addresses (script_pubkey v) = [] ->
       outcome (get_pubkey_and_address_for_height node height)
       = Raise IndexError).
Proof.
  intros node height outputs. subst outputs.
  rewrite pubkey_and_address_outcome, <- scan_vouts_None.
  rewrite <- scan_transactions_concat. split.
  - destruct (scan_transactions _) as [[a | e] |]; split;
      try discriminate; reflexivity.
  - intros pre v post Hsplit Hpre Hv Ha.
    assert (E : scan_transactions
                  (transactions (block node (get_blockhash node height)))
                = Some (Raise IndexError)).
    { rewrite scan_transactions_concat. apply scan_vouts_Raise.
      split; [reflexivity |]. exists pre, v, post. auto. }
    now rewrite E.
Qed.

Lemma height_without_payout_address_witness :
  outcome (get_pubkey_and_address_for_height chain_no_address 50)
  = Raise IndexError.
Proof.
  apply (proj2 (height_without_payout_address chain_no_address 50)
           [output "nulldata" []] (output "pubkey" [])
           [output "pubkeyhash" ["B"]]).
  - reflexivity.
  - repeat constructor.
  - reflexivity.
  - reflexivity.
Defined.

(* ------------------------------------------------------------------ *)
(** ** Where the resolver stops *)

Lemma resolver_outcome node lookback :
  outcome (get_address_to_fedkey_map node lookback)
  = match outcome (scan_fedkey_to_address_map node lookback) with
    | Ok m => Ok (invert m)
    | Raise e => Raise e
    end.
Proof.
  unfold get_address_to_fedkey_map. rewrite outcome_bind.
  now destruct (outcome (scan_fedkey_to_address_map node lookback)).
Qed.

Lemma scan_step_cases node i d :
  match scan_transactions (transactions (block node (get_blockhash node i))) with
  | Some (Ok _) => exists d', outcome (scan_step node i d) = Ok d'
  | Some (Raise e) => outcome (scan_step node i d) = Raise e
  | None => outcome (scan_step node i d) = Raise TypeError
  end.
Proof.
  unfold scan_step. rewrite outcome_bind, pubkey_and_address_outcome.
  destruct (scan_transactions _) as [[a | e] |]; try reflexivity.
  destruct (miner_at_height node i) as [pk |]; [| eexists; reflexivity].
  destruct (negb (Dict.mem d pk)); eexists; reflexivity.
Qed.

Lemma scan_from node b : forall n c d,
  n = Z.to_nat (b - c) ->
  match outcome (for_each (range c b) (scan_step node) d) with
  | Ok _ => forall h, c <= h < b -> payable node h
  | Raise e =>
      exists h, c <= h < b /\
        (forall h', c <= h' < h -> payable node h') /\
        ((scan_transactions (transactions (block node (get_blockhash node h)))
          = None /\ e = TypeError) \/
         (scan_transactions (transactions (block node (get_blockhash node h)))
          = Some (Raise IndexError) /\ e = IndexError))
  end.
Proof.
  induction n as [| n IH]; intros c d En.
  - rewrite range_nil by lia. cbn. intros h Hh. lia.
  - rewrite range_cons by lia. cbn [for_each]. rewrite outcome_bind.
    pose proof (scan_step_cases node c d) as Hc.
    destruct (scan_transactions (transactions (block node (get_blockhash node c))))
      as [[a | e] |] eqn:Hs.
    + destruct Hc as (d' & ->).
      specialize (IH (c + 1) d' ltac:(lia)).
      destruct (outcome (for_each (range (c + 1) b) (scan_step node) d'))
        as [m | e].
      * intros h Hh. assert (h = c \/ c + 1 <= h < b) as [-> | Hr] by lia.
        -- now exists a.
        -- now apply IH.
      * destruct IH as (h & Hr & Hbefore & Hkind).
        exists h. split; [lia |]. split; [| exact Hkind].
        intros h' Hh'. assert (h' = c \/ c + 1 <= h' < h) as [-> | Hr'] by lia.
        -- now exists a.
        -- now apply Hbefore.
    + assert (e = IndexError) as ->.
      { rewrite scan_transactions_concat in Hs. now apply scan_vouts_Raise in Hs. }
      rewrite Hc. exists c. split; [lia |]. split; [intros; lia |].
      right. split; [assumption | reflexivity].
    + rewrite Hc. exists c. split; [lia |]. split; [intros; lia |].
      left. split; [assumption | reflexivity].
Qed.

(** X7. [get_address_to_fedkey_map] returns a map only if the block of
    every height of the window has a recognized output and the first of
    them has an address; one height of the window without it makes the call
    raise, whatever the other heights hold: no partial map is returned. *)
Theorem resolver_returns_no_partial_map :
  forall node lookback,
    let tip := get_block_count node in
    (forall a2f,
       outcome (get_address_to_fedkey_map node lookback) = Ok a2f ->
       forall h, tip - lookback <= h < tip -> payable node h) /\
    (forall h, tip - lookback <= h < tip -> ~ payable node h ->
       exists e, outcome (get_address_to_fedkey_map node lookback) = Raise e).
Proof.
  intros node lookback tip. rewrite resolver_outcome.
  unfold scan_fedkey_to_address_map. rewrite outcome_bind_call. fold tip.
  pose proof (scan_from node tip _ (tip - lookback) Dict.empty eq_refl) as H.
  destruct (outcome (for_each _ _ _)) as [m | e].
  - split; [intros a2f _; exact H |].
    intros h Hh Hno. exfalso. apply Hno. now apply H.
  - split; [discriminate |]. intros h Hh Hno. eauto.
Qed.

Lemma resolver_returns_no_partial_map_witness :
  exists e, outcome (get_address_to_fedkey_map chain_missing_output 3) = Raise e.
Proof.
  apply (proj2 (resolver_returns_no_partial_map chain_missing_output 3) 11).
  - cbn. lia.
  - intros (a & E). vm_compute in E. discriminate.
Defined.

(* ------------------------------------------------------------------ *)
(** ** The returned address-to-key map *)

(** The binding of the intermediate map, for any lookback. *)
Lemma scan_binds_earliest node lookback m k a :
  outcome (scan_fedkey_to_address_map node lookback) = Ok m ->
  Dict.get m k = Some a ->
  exists h, get_block_count node - lookback <= h < get_block_count node /\
    outcome (get_pubkey_and_address_for_height node h) = Ok (Some (Some k, a)) /\
    forall h', get_block_count node - lookback <= h' < h ->
               miner_at_height node h' <> Some k.
Proof.
  intros Hrun Hget. destruct (Z_le_gt_dec 0 lookback) as [Hlb | Hlb].
  - destruct (scan_reaches_earliest_sightings node lookback m Hrun Hlb)
      as [Hm _]. now apply Hm.
  - unfold scan_fedkey_to_address_map in Hrun.
    rewrite outcome_bind_call, range_nil in Hrun by lia.
    inversion Hrun; subst. discriminate.
Qed.

Lemma resolver_Ok node lookback a2f :
  outcome (get_address_to_fedkey_map node lookback) = Ok a2f ->
  exists m, outcome (scan_fedkey_to_address_map node lookback) = Ok m /\
            a2f = invert m.
Proof.
  rewrite resolver_outcome.
  destruct (outcome (scan_fedkey_to_address_map node lookback)) as [m | e];
    [| discriminate].
  intros H. inversion H. eauto.
Qed.

Lemma invert_sound m a k :
  Dict.wf m -> Dict.get (invert m) a = Some k -> Dict.get m k = Some a.
Proof.
  intros Hwf H. apply invert_from_sound in H. destruct H as [H | H].
  - now apply In_get.
  - discriminate.
Qed.

(** X8. When [get_address_to_fedkey_map] returns, every entry of the map
    pairs an address with a signing key whose earliest block of the window
    paid that address, no address is listed twice, and no signing key is
    listed under two addresses. *)
Theorem address_map_entries_are_first_sightings :
  forall node lookback a2f,
    outcome (get_address_to_fedkey_map node lookback) = Ok a2f ->
    let tip := get_block_count node in
    Dict.wf a2f /\
    (forall addr k, Dict.get a2f addr = Some k ->
       exists h, tip - lookback <= h < tip /\
         outcome (get_pubkey_and_address_for_height node h)
         = Ok (Some (Some k, addr)) /\
         forall h', tip - lookback <= h' < h ->
                    miner_at_height node h' <> Some k) /\
    (forall a1 a2 k, Dict.get a2f a1 = Some k -> Dict.get a2f a2 = Some k ->
                     a1 = a2).
Proof.
  intros node lookback a2f Hrun tip.
  destruct (resolver_Ok _ _ _ Hrun) as (m & Hm & ->).
  pose proof (scan_wf _ _ _ Hm) as Hwf.
  split; [apply invert_from_wf; constructor |]. split.
  - intros addr k H. apply (scan_binds_earliest node lookback m k addr Hm).
    now apply invert_sound.
  - intros a1 a2 k H1 H2. apply invert_sound in H1, H2; auto. congruence.
Qed.

Lemma address_map_entries_are_first_sightings_witness :
  Dict.wf [("A", "PKA"); ("B", "PKB"); ("C", "PKC")].
Proof.
  apply (address_map_entries_are_first_sightings chain_100_104 5
           [("A", "PKA"); ("B", "PKB"); ("C", "PKC")]).
  reflexivity.
Defined.

(* ------------------------------------------------------------------ *)
(** ** The dict comprehension that inverts a map *)

Lemma invert_from_untouched d a : forall acc,
  (forall k, ~ In (k, a) d) ->
  Dict.get (fold_left invert_step d acc) a = Dict.get acc a.
Proof.
  induction d as [| [k0 a0] d IH]; intros acc Hno; simpl; [reflexivity |].
  rewrite IH by (intros k Hin; apply (Hno k); now right).
  unfold invert_step. simpl. rewrite get_set.
  destruct (String.eqb_spec a0 a) as [-> | Hne]; [| reflexivity].
  exfalso. apply (Hno k0). now left.
Qed.

Lemma invert_from_last d a k : forall acc,
  Dict.get (fold_left invert_step d acc) a = Some k ->
  (exists pre post, d = pre ++ (k, a) :: post /\ forall k', ~ In (k', a) post) \/
  (Dict.get acc a = Some k /\ forall k', ~ In (k', a) d).
Proof.
  induction d as [| [k0 a0] d IH]; intros acc H; simpl in H.
  - right. split; [assumption | intros k' []].
  - apply IH in H. destruct H as [(pre & post & -> & Hpost) | (Hacc & Hno)].
    + left. exists ((k0, a0) :: pre), post. split; [reflexivity | assumption].
    + unfold invert_step in Hacc. simpl in Hacc. rewrite get_set in Hacc.
      destruct (String.eqb_spec a0 a) as [-> | Hne].
      * inversion Hacc; subst. left. exists [], d. split; [reflexivity | assumption].
      * right. split; [assumption |]. intros k' [E | Hin].
        -- inversion E. contradiction.
        -- now apply (Hno k').
Qed.

(** X9. In the inversion of the key-to-address map a later item overwrites
    an earlier one with the same address: an address is bound to a key
    exactly when that key is the one of the last item of the map, in
    insertion order, that has this address. *)
Theorem inversion_last_key_wins :
  forall d a k,
    Dict.get (invert d) a = Some k <->
    exists pre post, Dict.items d = pre ++ (k, a) :: post /\
                     forall k', ~ In (k', a) post.
Proof.
  intros d a k. unfold invert, Dict.items. split.
  - intros H. apply invert_from_last in H.
    destruct H as [H | (H & _)]; [assumption | discriminate].
  - intros (pre & post & -> & Hpost).
    rewrite fold_left_app. simpl. rewrite invert_from_untouched by assumption.
    unfold invert_step. simpl. now rewrite get_set, String.eqb_refl.
Qed.

Lemma invert_from_fresh d : forall acc,
  NoDup (map snd d) ->
  (forall a, In a (map snd d) -> ~ In a (Dict.keys acc)) ->
  fold_left invert_step d acc = acc ++ map swap d.
Proof.
  induction d as [| [k a] d IH]; intros acc Hnd Hfresh; simpl.
  - now rewrite app_nil_r.
  - inversion Hnd as [| ? ? Ha Hnd']; subst.
    unfold invert_step at 2. simpl.
    rewrite set_fresh by (apply get_None_keys; apply Hfresh; now left).
    rewrite IH; auto.
    + now rewrite <- app_assoc.
    + intros a' Ha'. rewrite keys_app, in_app_iff. simpl.
      intros [Hin | [<- | []]]; [| contradiction].
      apply (Hfresh a'); [now right | assumption].
Qed.

(** X10. When no two items of a map have the same value, its inversion is
    the list of its items with key and value swapped, in the same order;
    and when its keys are distinct too, inverting twice gives the map
    back. *)
Theorem inversion_of_injective_map :
  forall d,
    NoDup (map snd (Dict.items d)) ->
    invert d = map swap (Dict.items d) /\
    (Dict.wf d -> invert (invert d) = d).
Proof.
  intros d Hnd. unfold Dict.items in *.
  assert (E : invert d = map swap d).
  { unfold invert, Dict.items. rewrite invert_from_fresh; auto. }
  split; [exact E |]. intros Hwf. rewrite E.
  unfold invert, Dict.items. rewrite invert_from_fresh.
  - simpl. rewrite map_map. rewrite <- (map_id d) at 2.
    apply map_ext. now intros [k a].
  - rewrite map_map. simpl. exact Hwf.
  - intros a _ [].
Qed.

Lemma inversion_of_injective_map_witness :
  invert [("PKA", "A"); ("PKB", "B")] = map swap [("PKA", "A"); ("PKB", "B")] /\
  invert (invert [("PKA", "A"); ("PKB", "B")]) = [("PKA", "A"); ("PKB", "B")].
Proof.
  destruct (inversion_of_injective_map [("PKA", "A"); ("PKB", "B")]) as [H1 H2].
  - repeat constructor; simpl; intuition discriminate.
  - split; [exact H1 |]. apply H2.
    repeat constructor; simpl; intuition discriminate.
Defined.

(* ------------------------------------------------------------------ *)
(** ** The run as a whole *)

Lemma outcome_pair {A} (m : M A) a : outcome m = Ok a -> m = (trace m, Ok a).
Proof. destruct m as [t r]. unfold outcome, trace. simpl. now intros ->. Qed.

(** After the resolver no stage raises. *)
Lemma stages_after_resolver node :
  match outcome (get_address_to_fedkey_map node
                   (Z.of_nat (List.length (federation_members node)) * 3)) with
  | Ok _ => exists l, outcome (vote_monitor_stages node) = Ok l
  | Raise e => outcome (vote_monitor_stages node) = Raise e
  end.
Proof.
  unfold vote_monitor_stages, get_current_federation_pubkeys.
  rewrite outcome_bind_call. rewrite outcome_bind.
  destruct (outcome (get_address_to_fedkey_map node _)) as [a2f | e];
    [| reflexivity].
  unfold get_last_proposal_id. rewrite outcome_bind_call.
  destruct (last_completed_spec node (LastProposalId node)) as (B & HB & _).
  rewrite (outcome_bind_eq _ _ _ HB).
  rewrite (outcome_bind_eq _ _ _ (find_whitelisted_outcome node (Dict.keys a2f))).
  destruct (tabulate_total node (filter (IsWhitelisted node) (Dict.keys a2f)) B)
    as (votes & Hv & Hvotes).
  rewrite (outcome_bind_eq _ _ _ Hv).
  destruct (filter_eligible_total node votes a2f B) as (filtered & Hf).
  { intros k Hk. apply in_map_iff in Hk. destruct Hk as ([k' v] & <- & Hin).
    destruct (Hvotes _ _ Hin) as [Hwl _]. apply filter_In in Hwl.
    destruct Hwl as [Hwl _]. intros Hnone. now apply get_None_keys in Hnone. }
  rewrite (outcome_bind_eq _ _ _ Hf).
  destruct (nonvoting_total a2f B (Dict.items filtered) []) as (keys & Hkeys).
  { intros addr v Hin _.
    destruct (filter_eligible_sound _ _ _ _ _ Hf _ _ Hin) as (_ & key & -> & _).
    discriminate. }
  unfold get_nonvoting_fedkeys_in_last_3_proposals.
  rewrite (outcome_bind_eq _ _ _ Hkeys).
  eexists. reflexivity.
Qed.

(** X11. [run_vote_monitor] returns a report exactly when the resolver
    returns, and an exception of the resolver is the exception of the run:
    on the addresses the resolver recorded, the whitelist check, the
    tabulation, the eligibility filter and the detector do not raise; in
    particular the two subscripts of the address-to-key map find their key
    in every run. *)
Theorem run_returns_when_resolver_returns :
  forall node,
    match outcome (get_address_to_fedkey_map node
                     (Z.of_nat (List.length (federation_members node)) * 3)) with
    | Ok _ => exists report, outcome (run_vote_monitor node) = Ok report
    | Raise e => outcome (run_vote_monitor node) = Raise e
    end.
Proof.
  intros node. pose proof (stages_after_resolver node) as Hs.
  unfold run_vote_monitor. rewrite outcome_bind.
  destruct (outcome (get_address_to_fedkey_map node _)) as [a2f | e].
  - destruct Hs as (l & ->). eexists. reflexivity.
  - now rewrite Hs.
Qed.

(** X12. A signing key that produced no block of the lookback window is
    never reported, whatever its membership and its votes: the window of a
    run is the last 3 x (number of current federation members) heights. *)
Theorem silent_key_is_never_reported :
  forall node t l k,
    vote_monitor_stages node = (t, Ok l) ->
    (forall h,
       get_block_count node
       - Z.of_nat (List.length (federation_members node)) * 3 <= h
       < get_block_count node ->
       miner_at_height node h <> Some k) ->
    ~ In k (nonvoting_fedkeys l).
Proof.
  intros node t l k Hrun Hsilent Hin.
  apply vote_monitor_stages_Ok in Hrun.
  destruct Hrun as (Hmap & _ & _ & _ & _ & Hflag & _).
  destruct (nonvoting_invariant _ _ _ _ Hflag) as (flagged & _ & Hkeys).
  destruct (Forall2_In_r _ _ _ _ Hkeys Hin) as (addr & _ & Haddr).
  destruct (resolver_Ok _ _ _ Hmap) as (m & Hm & E).
  rewrite E in Haddr. apply invert_sound in Haddr; [| eapply scan_wf; eauto].
  destruct (scan_binds_earliest _ _ _ _ _ Hm Haddr) as (h & Hh & Hs & _).
  apply (Hsilent h Hh).
  rewrite pubkey_and_address_outcome in Hs.
  destruct (scan_transactions _) as [[a | e] |]; now inversion Hs.
Qed.

Lemma silent_key_is_never_reported_witness :
  ~ In "PKZ" ["PKA"].
Proof.
  assert (E : exists t l, vote_monitor_stages chain_two_voters = (t, Ok l) /\
                          nonvoting_fedkeys l = ["PKA"]).
  { vm_compute. do 2 eexists. split; reflexivity. }
  destruct E as (t & l & E & <-).
  apply (silent_key_is_never_reported chain_two_voters t l "PKZ" E).
  intros h Hh. cbn in Hh.
  assert (h = 40 \/ h = 41 \/ h = 42) as [-> | [-> | ->]] by lia;
    vm_compute; discriminate.
Defined.

Lemma Forall2_In_l {A B} (R : A -> B -> Prop) l1 l2 x :
  Forall2 R l1 l2 -> In x l1 -> exists y, In y l2 /\ R x y.
Proof.
  induction 1 as [| x' y l1 l2 Hxy _ IH]; intros Hin; [contradiction |].
  destruct Hin as [-> | Hin].
  - exists y. split; [now left | assumption].
  - destruct (IH Hin) as (y' & ? & ?). exists y'. split; [now right | assumption].
Qed.

Lemma has_vote_spec node address code p :
  has_vote node address code p = true <-> GetVote node p address = Some code.
Proof.
  unfold has_vote. destruct (GetVote node p address) as [c |].
  - rewrite Z.eqb_eq. split; congruence.
  - split; discriminate.
Qed.

Lemma eligible_spec a2f fed k v :
  eligible a2f fed (k, v) = true <->
  exists key, Dict.get a2f k = Some key /\ In key fed.
Proof.
  unfold eligible. cbn [fst]. destruct (Dict.get a2f k) as [key |].
  - rewrite str_in_In. split; [eauto |]. intros (key' & E & H). now inversion E.
  - split; [discriminate | intros (key & E & _); discriminate].
Qed.

(** What the filter keeps, on a tabulation with distinct addresses. *)
Lemma filter_eligible_keeps node votes a2f B filtered :
  Dict.wf votes ->
  outcome (filter_eligible_fedkeys node votes a2f B) = Ok filtered ->
  filtered
  = filter (eligible a2f
              (federation_at_height node (GetVotingDeadline node (B - 2))))
           votes.
Proof.
  intros Hwf. rewrite filter_eligible_outcome. unfold Dict.items.
  rewrite (filter_eligible_from a2f _ votes Dict.empty Hwf)
    by (intros k _ []).
  destruct (forallb _ _); [| discriminate]. intros H. now inversion H.
Qed.

(** The flagged keys of a run that went through all stages. *)
Lemma stages_flag_exactly node t l k :
  vote_monitor_stages node = (t, Ok l) ->
  let a2f := address_to_fedkey_map l in
  let B := num_sda_proposals l in
  In k (nonvoting_fedkeys l) <->
  exists addr,
    Dict.get a2f addr = Some k /\ IsWhitelisted node addr = true /\
    In k (federation_at_height node (GetVotingDeadline node (B - 2))) /\
    3 <= B /\
    GetVote node B addr = Some 0 /\ GetVote node (B - 1) addr = Some 0 /\
    GetVote node (B - 2) addr = Some 0.
Proof.
  intros Hrun a2f B. apply vote_monitor_stages_Ok in Hrun.
  destruct Hrun as (_ & _ & Hwl & Htab & Hfil & Hflag & _).
  fold a2f B in Hwl, Htab, Hfil, Hflag.
  destruct (tabulate_exact _ _ _ _ Htab) as (Hwf & Hkeys & Hvals).
  pose proof (filter_eligible_keeps _ _ _ _ _ Hwf Hfil) as Hkeep.
  destruct (nonvoting_invariant _ _ _ _ Hflag) as (fl & Hfl & HF2).
  set (fed := federation_at_height node (GetVotingDeadline node (B - 2))) in *.
  assert (Hab : forall addr v, In (addr, v) (tabulated_votes l) ->
            (abstained_on_last_3 B v <->
             3 <= B /\ GetVote node B addr = Some 0 /\
             GetVote node (B - 1) addr = Some 0 /\
             GetVote node (B - 2) addr = Some 0)).
  { intros addr v Hin. destruct (Hvals _ _ Hin) as (E0 & _).
    unfold abstained_on_last_3. rewrite E0, !filter_In, !in_proposal_ids,
      !has_vote_spec. intuition lia. }
  split.
  - intros Hin. destruct (Forall2_In_r _ _ _ _ HF2 Hin) as (addr & Hafl & Hk).
    apply Hfl in Hafl. destruct Hafl as (v & Hv & Habs).
    unfold Dict.items in Hv. rewrite Hkeep in Hv. apply filter_In in Hv.
    destruct Hv as (Hv & Hel). apply eligible_spec in Hel.
    destruct Hel as (key & Hkey & Hfed).
    assert (key = k) as -> by congruence.
    exists addr. split; [assumption |]. split.
    + assert (Hw : In addr (current_whitelisted_fed_addresses l)).
      { apply Hkeys. apply in_map_iff. now exists (addr, v). }
      rewrite Hwl in Hw. now apply filter_In in Hw.
    + split; [assumption |]. now apply (Hab addr v).
  - intros (addr & Hk & Hw & Hfed & Hvotes).
    assert (Hin : In addr (Dict.keys (tabulated_votes l))).
    { apply Hkeys. rewrite Hwl. apply filter_In. split; [| assumption].
      apply get_In in Hk. apply in_map_iff. now exists (addr, k). }
    apply in_map_iff in Hin. destruct Hin as ([addr' v] & E & Hin).
    simpl in E. subst addr'.
    assert (Hafl : In addr fl).
    { apply Hfl. exists v. split.
      - unfold Dict.items. rewrite Hkeep. apply filter_In.
        split; [assumption |]. apply eligible_spec. eauto.
      - now apply (Hab addr v). }
    destruct (Forall2_In_l _ _ _ _ HF2 Hafl) as (k' & Hk' & E).
    assert (k' = k) as -> by congruence. assumption.
Qed.

(** X13. The report of a run that returns lists exactly the signing keys k
    of the address-to-key map of the resolver whose address is whitelisted,
    that are in the federation at the ending height of proposal B-2, and
    whose address has the vote code 0 on the proposals B, B-1 and B-2,
    where B, the result of the locator, is at least 3. *)
Theorem report_lists_exactly_delinquent_keys :
  forall node t report a2f B,
    run_vote_monitor node = (t, Ok report) ->
    outcome (get_address_to_fedkey_map node
               (Z.of_nat (List.length (federation_members node)) * 3))
    = Ok a2f ->
    outcome (get_last_completed_proposal_id node (LastProposalId node)) = Ok B ->
    exists keys,
      report = markdown_format_output keys /\
      forall k, In k keys <->
        exists addr,
          Dict.get a2f addr = Some k /\ IsWhitelisted node addr = true /\
          In k (federation_at_height node (GetVotingDeadline node (B - 2))) /\
          3 <= B /\
          GetVote node B addr = Some 0 /\ GetVote node (B - 1) addr = Some 0 /\
          GetVote node (B - 2) addr = Some 0.
Proof.
  intros node t report a2f B Hrun Hmap HB.
  destruct (run_returns_after_stages _ _ _ Hrun) as (l & Hl & ->).
  exists (nonvoting_fedkeys l). split; [reflexivity |]. intros k.
  pose proof (stages_flag_exactly node t l k Hl) as H.
  apply vote_monitor_stages_Ok in Hl. destruct Hl as (Hmap' & HB' & _).
  assert (address_to_fedkey_map l = a2f) as <- by congruence.
  assert (num_sda_proposals l = B) as <- by congruence.
  exact H.
Qed.

Lemma report_lists_exactly_delinquent_keys_witness :
  exists keys,
    markdown_format_output ["PKA"] = markdown_format_output keys /\
    forall k, In k keys <->
      exists addr,
        Dict.get [("A", "PKA"); ("B", "PKB")] addr = Some k /\
        IsWhitelisted chain_two_voters addr = true /\
        In k (federation_at_height chain_two_voters
                (GetVotingDeadline chain_two_voters (3 - 2))) /\
        3 <= 3 /\
        GetVote chain_two_voters 3 addr = Some 0 /\
        GetVote chain_two_voters (3 - 1) addr = Some 0 /\
        GetVote chain_two_voters (3 - 2) addr = Some 0.
Proof.
  apply (report_lists_exactly_delinquent_keys chain_two_voters
           (trace (run_vote_monitor chain_two_voters))
           (markdown_format_output ["PKA"])
           [("A", "PKA"); ("B", "PKB")] 3).
  - vm_compute. reflexivity.
  - vm_compute. reflexivity.
  - vm_compute. reflexivity.
Defined.

(** X14. With an empty current federation the lookback window is empty: no
    block is scanned, the address-to-key map is empty, and the run returns
    the header alone, whatever the proposals and the votes are. *)
Theorem empty_federation_reports_nobody :
  forall node,
    federation_members node = [] ->
    get_address_to_fedkey_map node
      (Z.of_nat (List.length (federation_members node)) * 3)
    = ([EvGetBlockCount], Ok Dict.empty) /\
    outcome (run_vote_monitor node) = Ok header.
Proof.
  intros node Hnone.
  assert (Hmap : get_address_to_fedkey_map node
                   (Z.of_nat (List.length (federation_members node)) * 3)
                 = ([EvGetBlockCount], Ok Dict.empty)).
  { rewrite Hnone. unfold get_address_to_fedkey_map, scan_fedkey_to_address_map.
    unfold bind at 2. unfold call.
    rewrite range_nil by (cbn [List.length Z.of_nat Z.mul]; lia). reflexivity. }
  split; [exact Hmap |].
  pose proof (stages_after_resolver node) as Hs. rewrite Hmap in Hs.
  destruct Hs as (l & Hl).
  unfold run_vote_monitor. rewrite (outcome_bind_eq _ _ _ Hl).
  apply outcome_pair in Hl.
  assert (Hnobody : nonvoting_fedkeys l = []).
  { destruct (nonvoting_fedkeys l) as [| k ks] eqn:E; [reflexivity |].
    assert (Hin : In k (nonvoting_fedkeys l)) by (rewrite E; now left).
    apply (stages_flag_exactly node _ l k Hl) in Hin.
    destruct Hin as (addr & Hk & _).
    apply vote_monitor_stages_Ok in Hl. destruct Hl as (Hmap' & _).
    rewrite Hmap in Hmap'. inversion Hmap' as [E']. rewrite <- E' in Hk.
    discriminate. }
  now rewrite Hnobody.
Qed.

Lemma empty_federation_reports_nobody_witness :
  outcome (run_vote_monitor chain_5_proposals) = Ok header.
Proof.
  apply (proj2 (empty_federation_reports_nobody chain_5_proposals eq_refl)).
Defined.

(* ------------------------------------------------------------------ *)
(** ** The report does not depend on the order of the keys *)

Lemma ascii_compare_Lt_trans x y z :
  Ascii.compare x y = Lt -> Ascii.compare y z = Lt -> Ascii.compare x z = Lt.
Proof.
  unfold Ascii.compare. rewrite !N.compare_lt_iff. apply N.lt_trans.
Qed.

Lemma compare_Lt_trans : forall a b c,
  String.compare a b = Lt -> String.compare b c = Lt -> String.compare a c = Lt.
Proof.
  induction a as [| x a IH]; intros [| y b] [| z c]; simpl;
    try discriminate; try reflexivity.
  destruct (Ascii.compare x y) eqn:Exy; try discriminate.
  - apply Ascii.compare_eq_iff in Exy. subst y.
    destruct (Ascii.compare x z); try discriminate; [apply IH | reflexivity].
  - intros _. destruct (Ascii.compare y z) eqn:Eyz; try discriminate.
    + apply Ascii.compare_eq_iff in Eyz. subst z. now rewrite Exy.
    + intros _. now rewrite (ascii_compare_Lt_trans x y z).
Qed.

Lemma str_le_cases a b : str_le a b <-> String.compare a b = Lt \/ a = b.
Proof.
  unfold str_le, String.leb. split.
  - destruct (String.compare a b) eqn:E; try discriminate; auto.
    apply String.compare_eq_iff in E. auto.
  - intros [-> | ->]; [reflexivity |].
    destruct (String.compare b b) eqn:E; try reflexivity.
    pose proof (String.compare_antisym b b) as H. rewrite E in H. discriminate.
Qed.

Lemma str_le_trans a b c : str_le a b -> str_le b c -> str_le a c.
Proof.
  rewrite !str_le_cases. intros [Hab | ->] [Hbc | ->]; auto.
  left. eapply compare_Lt_trans; eauto.
Qed.

Lemma sorted_strongly l : Sorted str_le l -> StronglySorted str_le l.
Proof. apply Sorted_StronglySorted. intros a b c. apply str_le_trans. Qed.

(** An ascending list is determined by its elements. *)
Lemma sorted_unique : forall l1 l2,
  StronglySorted str_le l1 -> StronglySorted str_le l2 ->
  Permutation l1 l2 -> l1 = l2.
Proof.
  induction l1 as [| a l1 IH]; intros l2 H1 H2 Hp.
  - apply Permutation_nil in Hp. now subst.
  - destruct l2 as [| b l2].
    { apply Permutation_sym, Permutation_nil in Hp. discriminate. }
    inversion H1 as [| ? ? Hs1 Ha]; subst.
    inversion H2 as [| ? ? Hs2 Hb]; subst.
    assert (a = b) as ->.
    { assert (Hin_a : In a (b :: l2))
        by (eapply Permutation_in; [exact Hp | now left]).
      assert (Hin_b : In b (a :: l1))
        by (eapply Permutation_in; [apply Permutation_sym; exact Hp | now left]).
      destruct Hin_a as [-> | Hin_a]; [reflexivity |].
      destruct Hin_b as [-> | Hin_b]; [reflexivity |].
      rewrite Forall_forall in Ha, Hb.
      apply String.leb_antisym; [apply Ha | apply Hb]; assumption. }
    f_equal. apply IH; auto. eapply Permutation_cons_inv; eauto.
Qed.

(** X15. The report depends on the flagged keys only, not on their order:
    two lists with the same keys, each as often, give the same string. *)
Theorem report_ignores_order_of_keys :
  forall keys keys',
    Permutation keys keys' ->
    markdown_format_output keys = markdown_format_output keys'.
Proof.
  intros keys keys' Hp. unfold markdown_format_output.
  rewrite !sort_bullets. do 3 f_equal.
  apply sorted_unique; try (apply sorted_strongly, sort_sorted).
  rewrite !sort_perm. exact Hp.
Qed.

Lemma report_ignores_order_of_keys_witness :
  markdown_format_output ["b"; "a"; "c"] = markdown_format_output ["c"; "b"; "a"].
Proof.
  apply report_ignores_order_of_keys.
  apply perm_trans with (l' := ["b"; "c"; "a"]).
  - apply perm_skip. apply perm_swap.
  - apply perm_swap.
Defined.

(* ------------------------------------------------------------------ *)
(** ** The queries of the resolver *)

Lemma scan_step_trace node i d :
  trace (scan_step node i d) = height_queries node i.
Proof.
  unfold scan_step, get_pubkey_and_address_for_height, height_queries.
  unfold trace, bind, call. simpl.
  destruct (scan_transactions _) as [[a | e] |]; simpl; try reflexivity.
  destruct (miner_at_height node i) as [pk |]; [| reflexivity].
  now destruct (negb (Dict.mem d pk)).
Qed.

Lemma flat_map_singleton {A} (l : list A) : flat_map (fun x => [x]) l = l.
Proof. induction l as [| x l IH]; simpl; congruence. Qed.

Lemma length_height_queries node l :
  List.length (flat_map (height_queries node) l) = (3 * List.length l)%nat.
Proof.
  induction l as [| h l IH]; [reflexivity |].
  cbn [flat_map height_queries app List.length]. rewrite IH. lia.
Qed.

(** X16. When [get_address_to_fedkey_map] returns, it has asked the chain
    height once and then, for each height of the window in ascending order,
    the producer, the block hash and the block of that hash: 1 + 3 x
    lookback queries for a lookback that is not negative. *)
Theorem resolver_queries :
  forall node lookback a2f,
    outcome (get_address_to_fedkey_map node lookback) = Ok a2f ->
    let tip := get_block_count node in
    trace (get_address_to_fedkey_map node lookback)
    = EvGetBlockCount
      :: flat_map (height_queries node) (range (tip - lookback) tip) /\
    (0 <= lookback ->
     List.length (trace (get_address_to_fedkey_map node lookback))
     = (1 + 3 * Z.to_nat lookback)%nat).
Proof.
  intros node lookback a2f Hrun tip.
  destruct (resolver_Ok _ _ _ Hrun) as (m & Hm & _).
  assert (Ht : trace (get_address_to_fedkey_map node lookback)
               = EvGetBlockCount
                 :: flat_map (height_queries node) (range (tip - lookback) tip)).
  { unfold get_address_to_fedkey_map.
    rewrite (trace_bind_Ok _ _ _ Hm). cbn [ret trace fst]. rewrite app_nil_r.
    unfold scan_fedkey_to_address_map in *.
    rewrite trace_bind_call. f_equal. rewrite outcome_bind_call in Hm.
    fold tip in Hm |- *.
    rewrite <- (flat_map_singleton (trace _)).
    apply (for_each_trace _ _ _ _ _ m); [| exact Hm].
    intros x s1 s2 _. now rewrite flat_map_singleton, scan_step_trace. }
  split; [exact Ht |]. intros Hlb. rewrite Ht. cbn [List.length]. f_equal.
  rewrite length_height_queries. unfold range. rewrite length_map, length_seq.
  f_equal. f_equal. lia.
Qed.

Lemma resolver_queries_witness :
  List.length (trace (get_address_to_fedkey_map chain_100_104 5))
  = (1 + 3 * Z.to_nat 5)%nat.
Proof.
  apply (proj2 (resolver_queries chain_100_104 5
                  [("A", "PKA"); ("B", "PKB"); ("C", "PKC")] eq_refl)).
  lia.
Defined.

(* ------------------------------------------------------------------ *)
(** ** The three vote lists of an address *)

Lemma NoDup_map_injective {A B} (f : A -> B) (l : list A) :
  (forall x y, f x = f y -> x = y) -> NoDup l -> NoDup (map f l).
Proof.
  intros Hinj. induction 1 as [| x l Hx _ IH]; simpl; constructor; auto.
  rewrite in_map_iff. intros (y & E & Hy). apply Hinj in E. now subst.
Qed.

Lemma proposal_ids_NoDup B : NoDup (proposal_ids B).
Proof.
  unfold proposal_ids, range0, range. rewrite map_map.
  apply NoDup_map_injective; [| apply seq_NoDup].
  intros i j H. lia.
Qed.

(** X17. In a tabulation that [tabulate_fed_member_votes] returns, the
    NoVote, No and Yes lists of an address hold no proposal twice and are
    pairwise disjoint: a proposal is in at most one of the three lists. *)
Theorem vote_lists_are_disjoint :
  forall node addresses B votes,
    outcome (tabulate_fed_member_votes node addresses B) = Ok votes ->
    forall k v, In (k, v) votes ->
      NoDup (NoVote v) /\ NoDup (No v) /\ NoDup (Yes v) /\
      (forall p, In p (NoVote v) -> ~ In p (No v) /\ ~ In p (Yes v)) /\
      (forall p, In p (No v) -> ~ In p (Yes v)).
Proof.
  intros node addresses B votes Hrun k v Hin.
  destruct (tabulate_exact _ _ _ _ Hrun) as (_ & _ & Hvals).
  destruct (Hvals k v Hin) as (E0 & E1 & E2). rewrite E0, E1, E2.
  repeat (split; [apply NoDup_filter, proposal_ids_NoDup |]).
  split.
  - intros p Hp. apply filter_In in Hp. destruct Hp as (_ & Hp).
    apply has_vote_spec in Hp. rewrite !filter_In, !has_vote_spec.
    split; intros (_ & H); congruence.
  - intros p Hp. apply filter_In in Hp. destruct Hp as (_ & Hp).
    apply has_vote_spec in Hp. rewrite filter_In, has_vote_spec.
    intros (_ & H); congruence.
Qed.

Lemma vote_lists_are_disjoint_witness :
  NoDup [3] /\ NoDup [1] /\ NoDup [2] /\
  (forall p, In p [3] -> ~ In p [1] /\ ~ In p [2]) /\
  (forall p, In p [1] -> ~ In p [2]).
Proof.
  apply (vote_lists_are_disjoint chain_mixed_votes ["X"; "Y"; "X"] 4
           [("X", {| NoVote := [1; 2; 3; 4]; No := []; Yes := [] |});
            ("Y", {| NoVote := [3]; No := [1]; Yes := [2] |})]
           eq_refl "Y" {| NoVote := [3]; No := [1]; Yes := [2] |}).
  right. now left.
Defined.
